(** * mdpdf: the Markdown-to-PDF pipeline of [src/lib/main.ts]

    A shallow embedding of the [Options] constructor (argument
    resolution), of [renderMarkdown] (page composition and PDF emission)
    and of [main] (the orchestrator), followed by the properties the
    specification states about them.

    JavaScript strings are modelled as [string] (bytes of the UTF-8
    encoding).  Every pattern the program searches for (["="], [".md"],
    [".pdf"], ...) is ASCII, and an ASCII byte never occurs inside a
    multi-byte UTF-8 sequence, so splitting, suffix tests and replacement
    give the same result on bytes as on UTF-16 code units. *)

From Stdlib Require Import String Ascii List Bool Arith Lia ZArith.
From Stdlib Require Import Permutation.
Import ListNotations.
Open Scope list_scope.
Open Scope string_scope.

Set Implicit Arguments.

(** ** The string methods of JavaScript that the program calls *)

Module JS.

(** [s.startsWith(p)] *)
Fixpoint startsWith (s p : string) {struct p} : bool :=
  match p, s with
  | EmptyString, _ => true
  | String a p', String b s' => Ascii.eqb a b && startsWith s' p'
  | String _ _, EmptyString => false
  end.

(** [s.slice(n)] for [0 <= n] *)
Fixpoint slice (n : nat) (s : string) {struct n} : string :=
  match n, s with
  | O, _ => s
  | S n', String _ s' => slice n' s'
  | S _, EmptyString => EmptyString
  end.

(** [s.endsWith(suf)] *)
Fixpoint endsWith (s suf : string) : bool :=
  String.eqb s suf ||
  match s with
  | EmptyString => false
  | String _ s' => endsWith s' suf
  end.

(** [s.includes(sub)] *)
Fixpoint includes (s sub : string) : bool :=
  startsWith s sub ||
  match s with
  | EmptyString => false
  | String _ s' => includes s' sub
  end.

(** [s.replace(pat, rep)] with a string pattern: only the FIRST
    occurrence of [pat] is replaced.  (The replacement strings of the
    program contain no [$], so no replacement pattern is expanded.) *)
Fixpoint replace (s pat rep : string) : string :=
  if startsWith s pat then rep ++ slice (String.length pat) s
  else match s with
       | EmptyString => EmptyString
       | String c s' => String c (replace s' pat rep)
       end.

(** [s.split(sep)] for a one-character separator: never empty. *)
Fixpoint split (sep : ascii) (s : string) : list string :=
  match s with
  | EmptyString => [EmptyString]
  | String c s' =>
      if Ascii.eqb c sep then EmptyString :: split sep s'
      else match split sep s' with
           | h :: t => String c h :: t
           | [] => [String c EmptyString]
           end
  end.

(** [a.join(sep)] *)
Fixpoint join (sep : string) (a : list string) : string :=
  match a with
  | [] => EmptyString
  | [x] => x
  | x :: rest => x ++ sep ++ join sep rest
  end.

End JS.

(** ** [node:path]

    The program calls [path.resolve] and [path.basename] and reads
    [import.meta.dir].  They belong to the runtime, not to the repository,
    and differ between platforms (the default browser path is a Windows
    one), so the program is embedded over an interface. *)

Class Platform := {
  resolve : string -> string -> string;   (* path.resolve(from, to) *)
  basename : string -> string;            (* path.basename(p) *)
  meta_dir : string                       (* import.meta.dir *)
}.

(** The POSIX implementation of the interface, after the algorithm of
    Node's [path.posix]: the arguments are taken right to left until an
    absolute one is met ([process.cwd()] comes last), then [.], [..] and
    empty segments are normalised away. *)

Module Posix.

Definition isAbsolute (p : string) : bool := JS.startsWith p "/".

(** [normalizeString], on segments; [acc] is the reversed result. *)
Fixpoint normalize (allowAboveRoot : bool) (segs acc : list string)
  : list string :=
  match segs with
  | [] => rev acc
  | seg :: rest =>
      if (seg =? "") || (seg =? ".") then normalize allowAboveRoot rest acc
      else if seg =? ".." then
        match acc with
        | top :: acc' =>
            if top =? ".." then normalize allowAboveRoot rest (".." :: acc)
            else normalize allowAboveRoot rest acc'
        | [] =>
            if allowAboveRoot then normalize allowAboveRoot rest [".."]
            else normalize allowAboveRoot rest []
        end
      else normalize allowAboveRoot rest (seg :: acc)
  end.

Definition resolve_step (acc : string * bool) (p : string) : string * bool :=
  let '(resolvedPath, resolvedAbsolute) := acc in
  if resolvedAbsolute then acc
  else if p =? "" then acc
  else (p ++ "/" ++ resolvedPath, isAbsolute p).

Definition resolve (process_cwd from to : string) : string :=
  let '(resolvedPath, resolvedAbsolute) :=
    fold_left resolve_step [to; from; process_cwd] ("", false) in
  let r := JS.join "/" (normalize (negb resolvedAbsolute)
                                  (JS.split "/" resolvedPath) []) in
  if resolvedAbsolute then "/" ++ r
  else if r =? "" then "." else r.

(** The last non-empty segment, or the empty string. *)
Definition basename (p : string) : string :=
  match filter (fun seg => negb (seg =? "")) (rev (JS.split "/" p)) with
  | seg :: _ => seg
  | [] => ""
  end.

Definition platform (process_cwd dir : string) : Platform :=
  Build_Platform (resolve process_cwd) basename dir.

End Posix.

(** ** Exceptions *)

Inductive exn : Type :=
| SyntaxError                     (* [e instanceof SyntaxError] *)
| Error (name message : string)   (* any other [Error] *)
| NotAnError.                     (* a thrown value that is no [Error] *)

Inductive Result (A : Type) : Type :=
| Ok (a : A)
| Throw (e : exn).
Arguments Ok {A} a.
Arguments Throw {A} e.

Definition bindR {A B} (r : Result A) (k : A -> Result B) : Result B :=
  match r with
  | Ok a => k a
  | Throw e => Throw e
  end.

(** ** [class Options] *)

Record Options := mkOptions {
  src : string;          (* absolute path of the markdown file *)
  out : string;          (* absolute path of the pdf file *)
  outputHTML : bool;
  browser : string;
  showTitle : bool
}.

Definition set_src (o : Options) (v : string) : Options :=
  mkOptions v (out o) (outputHTML o) (browser o) (showTitle o).
Definition set_out (o : Options) (v : string) : Options :=
  mkOptions (src o) v (outputHTML o) (browser o) (showTitle o).
Definition set_outputHTML (o : Options) (v : bool) : Options :=
  mkOptions (src o) (out o) v (browser o) (showTitle o).
Definition set_browser (o : Options) (v : string) : Options :=
  mkOptions (src o) (out o) (outputHTML o) v (showTitle o).
Definition set_showTitle (o : Options) (v : bool) : Options :=
  mkOptions (src o) (out o) (outputHTML o) (browser o) v.

(** The defaults assigned at the top of the constructor. *)
Definition default_options : Options :=
  {| src := "";
     out := "";
     outputHTML := false;
     showTitle := false;
     browser := "C:\Program Files (x86)\Microsoft\Edge\Application\msedge.exe" |}.

Section Constructor.
Context {P : Platform}.

(** [a.length !== 2 || a[1] === ''] *)
Definition bad_value (a : list string) : bool :=
  negb (length a =? 2)%nat || (nth 1 a "" =? "").

(** The body of [args.forEach(arg => { switch ... })], on [this]. *)
Definition parse_arg (cwd : string) (this : Options) (arg : string)
  : Result Options :=
  let a := JS.split "=" arg in
  let key := nth 0 a "" in
  if key =? "--src" then
    if bad_value a then Throw SyntaxError
    else Ok (set_src this
               (if JS.endsWith (nth 1 a "") ".md"
                then resolve cwd (nth 1 a "")
                else resolve cwd (nth 1 a "" ++ ".md")))
  else if key =? "--out" then
    if bad_value a then Throw SyntaxError
    else Ok (set_out this
               (if JS.endsWith (nth 1 a "") ".pdf"
                then resolve cwd (nth 1 a "")
                else resolve cwd (nth 1 a "" ++ ".pdf")))
  else if key =? "--outputHTML" then Ok (set_outputHTML this true)
  else if key =? "--showTitle" then Ok (set_showTitle this true)
  else if key =? "--browser" then
    if bad_value a then Throw SyntaxError
    else Ok (set_browser this (nth 1 a ""))
  else Throw SyntaxError.

(** [args.forEach]: left to right, the first throw ends the loop. *)
Fixpoint forEach (cwd : string) (args : list string) (this : Options)
  : Result Options :=
  match args with
  | [] => Ok this
  | arg :: rest => bindR (parse_arg cwd this arg) (forEach cwd rest)
  end.

(** The two checks that end the constructor. *)
Definition check (this : Options) : Result Options :=
  if src this =? "" then Throw SyntaxError
  else if out this =? ""
       then Ok (set_out this (JS.replace (src this) ".md" ".pdf"))
       else Ok this.

(** [new Options(args, cwd)] *)
Definition new_Options (args : list string) (cwd : string) : Result Options :=
  bindR (forEach cwd args default_options) check.

End Constructor.

(** ** Effects: the trace of what the process does *)

Record Margin := { top : string; right : string; bottom : string; left : string }.

(** The object literal handed to [page.pdf]. *)
Record PDFOptions := {
  path : string;
  format : string;
  margin : Margin;
  displayHeaderFooter : bool;
  headerTemplate : string;
  footerTemplate : string
}.

Inductive event : Type :=
| ConsoleLog (s : string)
| ConsoleError (s : string)
| ReadFile (p : string)
| Marked (md : string)
| WriteFile (p data : string)
| Launch (executablePath : string)
| NewPage
| SetContent (html : string)
| Pdf (o : PDFOptions)
| Close
| Exit (code : Z).

(** What the outside answers to each awaited call: a value or a throw. *)
Record World := {
  fs_readFile : string -> Result string;
  marked : string -> Result string;
  fs_writeFile : string -> string -> Result unit;
  puppeteer_launch : string -> Result unit;
  browser_newPage : Result unit;
  page_setContent : string -> Result unit;
  page_pdf : PDFOptions -> Result unit;
  browser_close : Result unit
}.

(** How a computation ends. [process.exit] ends the process: nothing
    runs after it, no handler and no [finally] block. *)
Inductive Outcome (A : Type) : Type :=
| Returned (a : A)
| Thrown (e : exn)
| Exited (code : Z).
Arguments Returned {A} a.
Arguments Thrown {A} e.
Arguments Exited {A} code.

Definition M (A : Type) : Type := (list event * Outcome A)%type.

Definition ret {A} (a : A) : M A := ([], Returned a).

Definition bind {A B} (m : M A) (k : A -> M B) : M B :=
  match m with
  | (t, Returned a) => let (t', r) := k a in ((t ++ t')%list, r)
  | (t, Thrown e) => (t, Thrown e)
  | (t, Exited c) => (t, Exited c)
  end.

Notation "x <- m ;; k" := (bind m (fun x => k))
  (at level 61, m at next level, right associativity).
Notation "m ;;; k" := (bind m (fun _ => k))
  (at level 61, right associativity).

Definition lift {A} (r : Result A) : M A :=
  match r with
  | Ok a => ([], Returned a)
  | Throw e => ([], Thrown e)
  end.

(** An awaited call: the call is recorded, then it returns or throws. *)
Definition call {A} (ev : event) (r : Result A) : M A :=
  match r with
  | Ok a => ([ev], Returned a)
  | Throw e => ([ev], Thrown e)
  end.

Definition console_log (s : string) : M unit := ([ConsoleLog s], Returned tt).
Definition console_error (s : string) : M unit := ([ConsoleError s], Returned tt).
Definition process_exit {A} (code : Z) : M A := ([Exit code], Exited code).

(** [try { body } catch (e) { handler e } finally { fin }] *)
Definition try_catch_finally (body : M unit) (handler : exn -> M unit)
  (fin : M unit) : M unit :=
  let after (m : M unit) : M unit :=
    match m with
    | (t, Exited c) => (t, Exited c)
    | (t, r) =>
        match fin with
        | (t', Returned _) => ((t ++ t')%list, r)
        | (t', r') => ((t ++ t')%list, r')
        end
    end in
  match body with
  | (t, Thrown e) => let (t', r) := after (handler e) in ((t ++ t')%list, r)
  | m => after m
  end.

(** ** String constants of the program *)

Definition nl : string := String "010"%char EmptyString.
Definition dq : string := String "034"%char EmptyString.

(** The template literal [web]. *)
Definition web_template (title css html : string) : string :=
  nl ++ "    <!DOCTYPE html>" ++
  nl ++ "    <html lang=" ++ dq ++ "zh-CN" ++ dq ++ ">" ++
  nl ++ "    <head>" ++
  nl ++ "      <meta charset=" ++ dq ++ "UTF-8" ++ dq ++ ">" ++
  nl ++ "      <title>" ++ title ++ "</title>" ++
  nl ++ "      <style>" ++ css ++ "</style>" ++
  nl ++ "    </head>" ++
  nl ++ "    <body>" ++
  nl ++ "      " ++ html ++
  nl ++ "    </body>" ++
  nl ++ "    </html>" ++
  nl ++ "  ".

Definition header_with_title : string :=
  "<div style=" ++ dq ++
  "font-size: 9px; font-family: '宋体'; color: #333; padding: 5px; margin-left: 0.6cm;"
  ++ dq ++ "> <span class=" ++ dq ++ "title" ++ dq ++ "></span> </div>".

Definition header_empty : string := "<div></div>".

Definition footer : string :=
  "<div style=" ++ dq ++
  "font-size: 9px; font-family: '宋体'; color: #333; padding: 5px; margin: 0 auto;"
  ++ dq ++ ">第 <span class=" ++ dq ++ "pageNumber" ++ dq
  ++ "></span> 页 / 共 <span class=" ++ dq ++ "totalPages" ++ dq
  ++ "></span> 页</div>".

(** The argument of [page.pdf]. *)
Definition pdf_options (options : Options) : PDFOptions :=
  {| path := out options;
     format := "A4";
     margin := {| top := "2cm"; right := "2.5cm"; bottom := "2cm"; left := "2.5cm" |};
     displayHeaderFooter := true;
     headerTemplate := if showTitle options then header_with_title else header_empty;
     footerTemplate := footer |}.

Definition msg_start : string := nl ++ "开始生成" ++ nl.
Definition msg_done : string := "生成成功" ++ nl.
Definition msg_usage : string :=
  nl ++ "参数错误, 正确格式:" ++ nl ++
  "mdpdf --src=xxx [--out=xxx] [--outputHTML] [--browser=xxx]" ++ nl.
Definition msg_unknown (name message : string) : string :=
  nl ++ "未知错误, 错误信息:" ++ nl ++ name ++ nl ++ message ++ nl.

(** ** [renderMarkdown] and [main] *)

Section Pipeline.
Context {P : Platform}.
Variable w : World.

Definition title_of (options : Options) : string :=
  JS.replace (basename (src options)) ".md" "".

Definition html_path (options : Options) : string :=
  JS.replace (src options) ".md" ".html".

Definition renderMarkdown (options : Options) : M unit :=
  md <- call (ReadFile (src options)) (fs_readFile w (src options)) ;;
  html <- call (Marked md) (marked w md) ;;
  css <- (let p := resolve meta_dir "../css/APS.css" in
          call (ReadFile p) (fs_readFile w p)) ;;
  let title := title_of options in
  let web := web_template title css html in
  (if outputHTML options
   then call (WriteFile (html_path options) web)
             (fs_writeFile w (html_path options) web)
   else ret tt) ;;;
  call (Launch (browser options)) (puppeteer_launch w (browser options)) ;;;
  call NewPage (browser_newPage w) ;;;
  call (SetContent web) (page_setContent w web) ;;;
  call (Pdf (pdf_options options)) (page_pdf w (pdf_options options)) ;;;
  call Close (browser_close w).

Definition handler (e : exn) : M unit :=
  match e with
  | SyntaxError => console_error msg_usage
  | Error name message => console_error (msg_unknown name message)
  | NotAnError => ret tt
  end.

Definition main (args : list string) (cwd : string) : M unit :=
  try_catch_finally
    (options <- lift (new_Options args cwd) ;;
     console_log msg_start ;;;
     renderMarkdown options ;;;
     console_log msg_done)
    handler
    (process_exit 0%Z).

End Pipeline.

(** A world in which every call succeeds. *)
Definition fine_world (md_text css_text html_text : string) : World :=
  {| fs_readFile := fun p => Ok (if JS.endsWith p ".css" then css_text else md_text);
     marked := fun _ => Ok html_text;
     fs_writeFile := fun _ _ => Ok tt;
     puppeteer_launch := fun _ => Ok tt;
     browser_newPage := Ok tt;
     page_setContent := fun _ => Ok tt;
     page_pdf := fun _ => Ok tt;
     browser_close := Ok tt |}.

(** ** The vocabulary of the specification

    These definitions follow the specification's words, not the code;
    the theorems below relate them to the constructor. *)

(** The key of an argument: what stands before its first [=]. *)
Fixpoint key_of (arg : string) : string :=
  match arg with
  | EmptyString => EmptyString
  | String c s => if Ascii.eqb c "=" then EmptyString else String c (key_of s)
  end.

(** The value of an argument: what stands after its first [=]. *)
Fixpoint value_of (arg : string) : string :=
  match arg with
  | EmptyString => EmptyString
  | String c s => if Ascii.eqb c "=" then s else value_of s
  end.

(** How many [=] an argument holds. *)
Fixpoint count_eq (arg : string) : nat :=
  match arg with
  | EmptyString => O
  | String c s => if Ascii.eqb c "=" then S (count_eq s) else count_eq s
  end.

Definition value_key (k : string) : bool :=
  (k =? "--src") || (k =? "--out") || (k =? "--browser").

Definition flag_key (k : string) : bool :=
  (k =? "--outputHTML") || (k =? "--showTitle").

Definition recognized (k : string) : bool := value_key k || flag_key k.

(** A value that lacks [=], is empty, or has several parts. *)
Definition malformed_value (arg : string) : bool :=
  (count_eq arg =? 0)%nat || (value_of arg =? "") || (2 <=? count_eq arg)%nat.

Definition malformed_arg (arg : string) : bool :=
  negb (recognized (key_of arg)) ||
  (value_key (key_of arg) && malformed_value arg).

(** The argument sets [--src] to a non-empty value. *)
Definition sets_src (arg : string) : bool :=
  (key_of arg =? "--src") && negb (malformed_value arg).

Definition malformed (args : list string) : bool :=
  existsb malformed_arg args || negb (existsb sets_src args).

(** A flag key followed by [=] and anything. *)
Definition flag_with_value (arg : string) : bool :=
  flag_key (key_of arg) && (1 <=? count_eq arg)%nat.

(** The value given to key [k] by its last occurrence in [args]. *)
Fixpoint last_value (k : string) (args : list string) : option string :=
  match args with
  | [] => None
  | arg :: rest =>
      match last_value k rest with
      | Some v => Some v
      | None => if key_of arg =? k then Some (value_of arg) else None
      end
  end.

(** A path value with its expected extension: kept when present,
    appended otherwise. *)
Definition with_ext (v ext : string) : string :=
  if JS.endsWith v ext then v else v ++ ext.

(** The steps of PDF emission. *)
Definition pdf_step (ev : event) : bool :=
  match ev with
  | Launch _ | NewPage | SetContent _ | Pdf _ | Close => true
  | _ => false
  end.


Definition is_exit (ev : event) : bool :=
  match ev with Exit _ => true | _ => false end.


(** The composed documents a trace hands out: to the file system and to
    the page. *)
Fixpoint documents (t : list event) : list string :=
  match t with
  | [] => []
  | WriteFile _ d :: t' => d :: documents t'
  | SetContent d :: t' => d :: documents t'
  | _ :: t' => documents t'
  end.

Section Inputs.
Context {P : Platform}.
Variable w : World.

(** The stylesheet bytes the composer receives. *)
Definition stylesheet : Result string :=
  fs_readFile w (resolve meta_dir "../css/APS.css").

(** The rendered fragment the composer receives. *)
Definition fragment (options : Options) : Result string :=
  bindR (fs_readFile w (src options)) (marked w).


End Inputs.

(** A world in which the page cannot be created. *)
Definition no_page_world : World :=
  {| fs_readFile := fun _ => Ok "# t";
     marked := fun _ => Ok "<h1>t</h1>";
     fs_writeFile := fun _ _ => Ok tt;
     puppeteer_launch := fun _ => Ok tt;
     browser_newPage := Throw (Error "Error" "Protocol error");
     page_setContent := fun _ => Ok tt;
     page_pdf := fun _ => Ok tt;
     browser_close := Ok tt |}.

(** A world in which pagination fails. *)
Definition no_pdf_world : World :=
  {| fs_readFile := fun p => Ok (if JS.endsWith p ".css" then "h1{}" else "# t");
     marked := fun _ => Ok "<h1>t</h1>";
     fs_writeFile := fun _ _ => Ok tt;
     puppeteer_launch := fun _ => Ok tt;
     browser_newPage := Ok tt;
     page_setContent := fun _ => Ok tt;
     page_pdf := fun _ => Throw (Error "Error" "EACCES");
     browser_close := Ok tt |}.

(** The element of the header template that the print engine fills with
    the title of the document. *)
Definition title_placeholder : string :=
  "<span class=" ++ dq ++ "title" ++ dq ++ "></span>".

(** The claim of the specification on the header: empty without the
    flag, and containing the derived title with it. *)
Definition header_shows_title {P : Platform} (options : Options) : Prop :=
  (showTitle options = false ->
   headerTemplate (pdf_options options) = header_empty)
  /\ (showTitle options = true ->
      JS.includes (headerTemplate (pdf_options options)) (title_of options)
      = true).

(** The configuration of the second end-to-end scenario. *)
Definition posix_paper_final : Options :=
  {| src := "/docs/paper.md"; out := "/docs/out/final.pdf";
     outputHTML := true; showTitle := false;
     browser := browser default_options |}.

(** A computation that neither records an [Exit] nor ends the process. *)
Definition quiet {A} (m : M A) : Prop :=
  Forall (fun ev => is_exit ev = false) (fst m) /\
  forall c, snd m <> Exited c.

Arguments web_template : simpl never.
Arguments header_with_title : simpl never.
Arguments footer : simpl never.
Arguments msg_usage : simpl never.
Arguments msg_start : simpl never.
Arguments msg_done : simpl never.
Arguments msg_unknown : simpl never.

(** The claim of the specification on flags: an argument list holding a
    flag key with an appended value is a parameter error. *)
Definition flag_values_rejected {P : Platform} : Prop :=
  forall args cwd,
    existsb flag_with_value args = true ->
    new_Options args cwd = Throw SyntaxError.

Definition posix : Platform := Posix.platform "/" "/app/lib".

(** [static format]: the usage line kept in the class (no function of
    the program reads it; [main] prints a text of its own). *)
Definition Options_format : string :=
  "mdpdf --src=xxx [--out=xxx] [--outputHTML] [--browser=xxx] [--showTitle]".

(** What the outside answers to the call an event records; the events
    that are no awaited call always go through. *)
Definition answer (w : World) (ev : event) : Result unit :=
  let void {A} (r : Result A) : Result unit :=
    match r with Ok _ => Ok tt | Throw e => Throw e end in
  match ev with
  | ReadFile p => void (fs_readFile w p)
  | Marked md => void (marked w md)
  | WriteFile p d => fs_writeFile w p d
  | Launch x => puppeteer_launch w x
  | NewPage => browser_newPage w
  | SetContent d => page_setContent w d
  | Pdf po => page_pdf w po
  | Close => browser_close w
  | ConsoleLog _ | ConsoleError _ | Exit _ => Ok tt
  end.

(** A world in which the browser cannot be launched. *)
Definition no_launch_world : World :=
  {| fs_readFile := fun p => Ok (if JS.endsWith p ".css" then "h1{}" else "# t");
     marked := fun _ => Ok "<h1>t</h1>";
     fs_writeFile := fun _ _ => Ok tt;
     puppeteer_launch := fun _ => Throw (Error "Error" "Failed to launch");
     browser_newPage := Ok tt;
     page_setContent := fun _ => Ok tt;
     page_pdf := fun _ => Ok tt;
     browser_close := Ok tt |}.

(** A world in which the Markdown converter throws a [SyntaxError]. *)
Definition syntax_error_world : World :=
  {| fs_readFile := fun p => Ok (if JS.endsWith p ".css" then "h1{}" else "# t");
     marked := fun _ => Throw SyntaxError;
     fs_writeFile := fun _ _ => Ok tt;
     puppeteer_launch := fun _ => Ok tt;
     browser_newPage := Ok tt;
     page_setContent := fun _ => Ok tt;
     page_pdf := fun _ => Ok tt;
     browser_close := Ok tt |}.

(** A world in which reading a file throws a value that is no [Error]. *)
Definition not_an_error_world : World :=
  {| fs_readFile := fun _ => Throw NotAnError;
     marked := fun _ => Ok "<h1>t</h1>";
     fs_writeFile := fun _ _ => Ok tt;
     puppeteer_launch := fun _ => Ok tt;
     browser_newPage := Ok tt;
     page_setContent := fun _ => Ok tt;
     page_pdf := fun _ => Ok tt;
     browser_close := Ok tt |}.

(** The configuration of the first end-to-end scenario. *)
Definition posix_paper : Options :=
  {| src := "/docs/paper.md"; out := "/docs/paper.pdf";
     outputHTML := false; showTitle := false;
     browser := browser default_options |}.

(** What [main] prints once [renderMarkdown] has ended: the success
    message, or what the [catch] block prints for the thrown value. *)
Definition report (r : Outcome unit) : list event :=
  match r with
  | Returned _ => [ConsoleLog msg_done]
  | Thrown e => fst (handler e)
  | Exited _ => []
  end.

(** The configuration that [--src=my.mdnotes/paper --outputHTML] gives in
    [/docs]. *)
Definition posix_mdnotes : Options :=
  {| src := "/docs/my.mdnotes/paper.md"; out := "/docs/my.pdfnotes/paper.md";
     outputHTML := true; showTitle := false;
     browser := browser default_options |}.

(** * Properties *)

(** ** The end-to-end scenarios of the specification *)

Example scenario1 :
  @new_Options posix ["--src=paper"] "/docs"
  = Ok {| src := "/docs/paper.md"; out := "/docs/paper.pdf";
          outputHTML := false; showTitle := false;
          browser := browser default_options |}.
Proof. reflexivity. Qed.

Example scenario2 :
  @new_Options posix
     ["--src=paper.md"; "--out=out/final"; "--outputHTML"] "/docs"
  = Ok posix_paper_final.
Proof. reflexivity. Qed.

Example scenario3 :
  @new_Options posix ["--src=x"; "--unknown"] "/docs" = Throw SyntaxError.
Proof. reflexivity. Qed.

(** ** Lemmas on the string methods *)

Module JSFacts.
Import JS.

Lemma append_nil_r (s : string) : s ++ "" = s.
Proof. induction s as [|c s IH]; simpl; [reflexivity | now rewrite IH]. Qed.

Lemma append_assoc (a b c : string) : (a ++ b) ++ c = a ++ b ++ c.
Proof. induction a as [|x a IH]; simpl; [reflexivity | now rewrite IH]. Qed.

Lemma startsWith_app (p q : string) : startsWith (p ++ q) p = true.
Proof.
  induction p as [|c p IH]; simpl; [reflexivity|].
  now rewrite Ascii.eqb_refl, IH.
Qed.

Lemma includes_startsWith (s sub : string) :
  startsWith s sub = true -> includes s sub = true.
Proof. destruct s; simpl; intros ->; reflexivity. Qed.

Lemma includes_app (a sub b : string) : includes (a ++ sub ++ b) sub = true.
Proof.
  induction a as [|c a IH]; simpl.
  - apply includes_startsWith, startsWith_app.
  - rewrite IH. apply orb_true_r.
Qed.

Lemma endsWith_app (p suf : string) : endsWith (p ++ suf) suf = true.
Proof.
  induction p as [|c p IH]; simpl.
  - destruct suf; cbn [endsWith]; now rewrite String.eqb_refl.
  - rewrite IH. apply orb_true_r.
Qed.

Lemma endsWith_inv (s suf : string) :
  endsWith s suf = true -> exists p, s = p ++ suf.
Proof.
  induction s as [|c s IH]; cbn [endsWith]; intros H.
  - rewrite orb_false_r in H. apply String.eqb_eq in H. now exists "".
  - apply orb_prop in H as [H|H].
    + apply String.eqb_eq in H. now exists "".
    + destruct (IH H) as [p ->]. now exists (String c p).
Qed.

(** [endsWith] decides "carries the extension". *)
Lemma endsWith_spec (s suf : string) :
  endsWith s suf = true <-> exists p, s = p ++ suf.
Proof.
  split; [apply endsWith_inv | intros [p ->]; apply endsWith_app].
Qed.

Lemma split_not_nil (sep : ascii) (s : string) : split sep s <> [].
Proof.
  destruct s as [|c s]; simpl; [discriminate|].
  destruct (Ascii.eqb c sep); [discriminate|].
  destruct (split sep s); discriminate.
Qed.

(** The first part of [arg.split('=')] is the key; the rest is the
    split of the value when there is a [=]. *)
Lemma split_key (s : string) :
  split "=" s =
  key_of s :: (if (count_eq s =? 0)%nat then [] else split "=" (value_of s)).
Proof.
  induction s as [|c s IH]; simpl; [reflexivity|].
  destruct (Ascii.eqb c "=") eqn:E; simpl; [reflexivity|].
  rewrite IH. reflexivity.
Qed.

Lemma split_length (s : string) :
  length (split "=" s) = S (count_eq s).
Proof.
  induction s as [|c s IH]; simpl; [reflexivity|].
  destruct (Ascii.eqb c "=") eqn:E; simpl; [now rewrite IH|].
  destruct (split "=" s) eqn:Es; [now apply split_not_nil in Es|].
  simpl in *. exact IH.
Qed.

Lemma split_no_eq (s : string) :
  count_eq s = 0%nat -> split "=" s = [s].
Proof.
  induction s as [|c s IH]; simpl; [reflexivity|].
  destruct (Ascii.eqb c "=") eqn:E; [discriminate|].
  intros H. now rewrite (IH H).
Qed.

Lemma count_eq_value (s : string) :
  count_eq s = S (count_eq (value_of s)) \/ count_eq s = 0%nat.
Proof.
  induction s as [|c s IH]; simpl; [now right|].
  destruct (Ascii.eqb c "="); [now left | exact IH].
Qed.




End JSFacts.

(** ** The constructor, argument by argument *)

(** Case analysis on the key of an argument, one [case] of the [switch]
    at a time. *)
Ltac by_key arg :=
  repeat match goal with
    | |- context [String.eqb (key_of arg) ?k] =>
        let E := fresh "Ekey" in
        destruct (String.eqb_spec (key_of arg) k) as [E|_];
        [try rewrite E | ]; cbn
    end.

Section ConstructorFacts.
Context {P : Platform}.
Import JS JSFacts.

Lemma split_value (arg : string) :
  count_eq arg = 1%nat -> split "=" arg = [key_of arg; value_of arg].
Proof.
  intros H. rewrite split_key, H. simpl.
  destruct (count_eq_value arg) as [H1|H1]; [|congruence].
  rewrite split_no_eq; [reflexivity | lia].
Qed.

(** The guard of the three value keys is the specification's
    "lacks [=], empty or multi-part value". *)
Lemma bad_value_spec (arg : string) :
  bad_value (split "=" arg) = malformed_value arg.
Proof.
  unfold bad_value, malformed_value.
  rewrite split_length.
  destruct (count_eq arg) as [|[|n]] eqn:E.
  - reflexivity.
  - rewrite (split_value _ E). cbn. now rewrite orb_false_r.
  - cbn. now rewrite orb_true_r.
Qed.

Lemma well_formed_count (arg : string) :
  malformed_value arg = false ->
  count_eq arg = 1%nat /\ value_of arg <> "".
Proof.
  unfold malformed_value. intros H.
  apply orb_false_elim in H as [H H2].
  apply orb_false_elim in H as [H0 Hv].
  apply Nat.eqb_neq in H0. apply Nat.leb_gt in H2.
  apply String.eqb_neq in Hv. split; [lia | exact Hv].
Qed.

(** What one round of the loop does, in the specification's terms. *)
Lemma parse_arg_spec (cwd : string) (this : Options) (arg : string) :
  parse_arg cwd this arg =
  if key_of arg =? "--src" then
    if malformed_value arg then Throw SyntaxError
    else Ok (set_src this (resolve cwd (with_ext (value_of arg) ".md")))
  else if key_of arg =? "--out" then
    if malformed_value arg then Throw SyntaxError
    else Ok (set_out this (resolve cwd (with_ext (value_of arg) ".pdf")))
  else if key_of arg =? "--outputHTML" then Ok (set_outputHTML this true)
  else if key_of arg =? "--showTitle" then Ok (set_showTitle this true)
  else if key_of arg =? "--browser" then
    if malformed_value arg then Throw SyntaxError
    else Ok (set_browser this (value_of arg))
  else Throw SyntaxError.
Proof.
  unfold parse_arg. cbv zeta. rewrite bad_value_spec.
  replace (nth 0 (split "=" arg) "") with (key_of arg)
    by (rewrite split_key; reflexivity).
  destruct (malformed_value arg) eqn:E; [reflexivity|].
  destruct (well_formed_count _ E) as [H1 _].
  rewrite (split_value _ H1). cbn [nth]. unfold with_ext.
  destruct (endsWith (value_of arg) ".md"), (endsWith (value_of arg) ".pdf");
    reflexivity.
Qed.

Lemma parse_arg_throws (cwd : string) (this : Options) (arg : string) (e : exn) :
  parse_arg cwd this arg = Throw e -> e = SyntaxError /\ malformed_arg arg = true.
Proof.
  rewrite parse_arg_spec. unfold malformed_arg, recognized, value_key, flag_key.
  by_key arg; destruct (malformed_value arg);
    simpl; intros H; inversion H; auto.
Qed.

Lemma parse_arg_malformed (cwd : string) (this : Options) (arg : string) :
  malformed_arg arg = true -> parse_arg cwd this arg = Throw SyntaxError.
Proof.
  rewrite parse_arg_spec. unfold malformed_arg, recognized, value_key, flag_key.
  by_key arg; destruct (malformed_value arg);
    simpl; intros H; auto; discriminate H.
Qed.

(** The loop goes through the list from the left. *)
Lemma forEach_app (cwd : string) (l1 l2 : list string) (this : Options) :
  forEach cwd (l1 ++ l2)%list this = bindR (forEach cwd l1 this) (forEach cwd l2).
Proof.
  revert this; induction l1 as [|a l1 IH]; intros this; simpl; [reflexivity|].
  destruct (parse_arg cwd this a); simpl; [apply IH | reflexivity].
Qed.

Lemma forEach_throws (cwd : string) (args : list string) (this : Options) (e : exn) :
  forEach cwd args this = Throw e ->
  e = SyntaxError /\ existsb malformed_arg args = true.
Proof.
  revert this; induction args as [|a args IH]; intros this; simpl; [discriminate|].
  destruct (parse_arg cwd this a) eqn:E; simpl.
  - intros H. destruct (IH _ H) as [-> ->]. now rewrite orb_true_r.
  - intros H. inversion H; subst.
    destruct (parse_arg_throws _ _ _ E) as [-> ->]. auto.
Qed.

Lemma forEach_malformed (cwd : string) (args : list string) (this : Options) :
  existsb malformed_arg args = true -> forEach cwd args this = Throw SyntaxError.
Proof.
  revert this; induction args as [|a args IH]; intros this; simpl; [discriminate|].
  intros H. destruct (malformed_arg a) eqn:E.
  - now rewrite (parse_arg_malformed cwd this a E).
  - destruct (parse_arg cwd this a) eqn:E'; simpl; [now apply IH|].
    destruct (parse_arg_throws _ _ _ E'); congruence.
Qed.

Lemma forEach_well_formed (cwd : string) (args : list string) (this : Options) :
  existsb malformed_arg args = false -> exists o, forEach cwd args this = Ok o.
Proof.
  intros H. destruct (forEach cwd args this) as [o|e] eqn:E; [now exists o|].
  destruct (forEach_throws _ _ _ E); congruence.
Qed.

End ConstructorFacts.

(** ** The fields the loop leaves behind *)

Section Fields.
Context {P : Platform}.
Import JS JSFacts.

(** Every field holds what the last occurrence of its key gave it, or
    what it held before the loop. *)
Lemma forEach_fields (cwd : string) (args : list string) :
  forall this o, forEach cwd args this = Ok o ->
  src o = match last_value "--src" args with
          | Some v => resolve cwd (with_ext v ".md")
          | None => src this
          end
  /\ out o = match last_value "--out" args with
             | Some v => resolve cwd (with_ext v ".pdf")
             | None => out this
             end
  /\ browser o = match last_value "--browser" args with
                 | Some v => v
                 | None => browser this
                 end
  /\ outputHTML o =
     outputHTML this || existsb (fun a => key_of a =? "--outputHTML") args
  /\ showTitle o =
     showTitle this || existsb (fun a => key_of a =? "--showTitle") args.
Proof.
  induction args as [|a args IH]; intros this o.
  - cbn. intros H; inversion H; subst. now rewrite !orb_false_r.
  - cbn [forEach last_value existsb]. rewrite parse_arg_spec.
    by_key a; try destruct (malformed_value a); cbn [bindR];
      try discriminate; intros H; apply IH in H;
      destruct H as (Hs & Ho & Hb & Hh & Ht);
      rewrite Hs, Ho, Hb, Hh, Ht; cbn;
      destruct (last_value "--src" args), (last_value "--out" args),
        (last_value "--browser" args);
      rewrite ?orb_true_r; auto.
Qed.

Lemma last_value_none (k : string) (args : list string) :
  last_value k args = None <-> existsb (fun a => key_of a =? k) args = false.
Proof.
  induction args as [|a args IH]; cbn; [tauto|].
  destruct (last_value k args).
  - split; [discriminate|]. intros H. apply orb_false_elim in H as [_ H].
    apply IH in H. discriminate.
  - destruct (key_of a =? k); cbn; [split; discriminate|].
    rewrite <- IH. tauto.
Qed.

Lemma sets_src_key (args : list string) :
  existsb (fun a => key_of a =? "--src") args = false ->
  existsb sets_src args = false.
Proof.
  induction args as [|a args IH]; cbn; [reflexivity|].
  intros H. apply orb_false_elim in H as [Ha H].
  unfold sets_src at 1. now rewrite Ha, (IH H).
Qed.

Lemma key_src_sets (args : list string) :
  existsb malformed_arg args = false ->
  existsb sets_src args = false ->
  existsb (fun a => key_of a =? "--src") args = false.
Proof.
  induction args as [|a args IH]; cbn; [reflexivity|].
  intros Hm Hs.
  apply orb_false_elim in Hm as [Hma Hm].
  apply orb_false_elim in Hs as [Hsa Hs].
  rewrite (IH Hm Hs), orb_false_r.
  unfold sets_src in Hsa. unfold malformed_arg, recognized, value_key in Hma.
  destruct (key_of a =? "--src"); [|reflexivity].
  cbn in Hma, Hsa. destruct (malformed_value a); discriminate.
Qed.

Section NonEmpty.
Hypothesis resolve_nonempty : forall from to, resolve from to <> "".

(** After the loop, [src] is empty exactly when no [--src] was given. *)
Lemma src_empty_iff (cwd : string) (args : list string) (o : Options) :
  forEach cwd args default_options = Ok o ->
  (src o = "" <-> existsb (fun a => key_of a =? "--src") args = false).
Proof.
  intros H. destruct (forEach_fields _ _ _ H) as (Hs & _).
  rewrite <- last_value_none.
  destruct (last_value "--src" args) as [v|].
  - rewrite Hs. split; [|discriminate].
    intros E. now apply resolve_nonempty in E.
  - rewrite Hs. cbn. tauto.
Qed.

(** Resolution fails exactly on the malformed argument lists. *)
Lemma new_Options_throw_iff (args : list string) (cwd : string) :
  new_Options args cwd = Throw SyntaxError <-> malformed args = true.
Proof.
  unfold new_Options, malformed.
  destruct (existsb malformed_arg args) eqn:Em.
  - rewrite (forEach_malformed cwd args default_options Em). cbn. tauto.
  - destruct (forEach_well_formed cwd args default_options Em) as [o Ho].
    rewrite Ho. cbn [bindR orb]. unfold check.
    pose proof (src_empty_iff _ _ Ho) as Hsrc.
    destruct (String.eqb_spec (src o) "") as [E|E].
    + apply Hsrc in E. rewrite (sets_src_key _ E). cbn. tauto.
    + split.
      * destruct (out o =? ""); discriminate.
      * intros Hn. exfalso. apply E, Hsrc.
        apply key_src_sets; [exact Em|].
        now destruct (existsb sets_src args).
Qed.

End NonEmpty.

Lemma new_Options_throws (args : list string) (cwd : string) (e : exn) :
  new_Options args cwd = Throw e -> e = SyntaxError.
Proof.
  unfold new_Options.
  destruct (forEach cwd args default_options) as [o|e'] eqn:E; cbn.
  - unfold check. destruct (src o =? ""); [intros H; now inversion H|].
    destruct (out o =? ""); discriminate.
  - intros H; inversion H; subst. now destruct (forEach_throws _ _ _ E).
Qed.

End Fields.

(** ** The orchestrator always reaches [process.exit(0)] *)

Section Quiet.

Lemma quiet_ret {A} (a : A) : quiet (ret a).
Proof. split; [constructor | discriminate]. Qed.

Lemma quiet_lift {A} (r : Result A) : quiet (lift r).
Proof. destruct r; (split; [constructor | discriminate]). Qed.

Lemma quiet_call {A} (ev : event) (r : Result A) :
  is_exit ev = false -> quiet (call ev r).
Proof.
  intros H. destruct r; (split; [repeat constructor; exact H | discriminate]).
Qed.

Lemma quiet_console_log (s : string) : quiet (console_log s).
Proof. split; [repeat constructor | discriminate]. Qed.

Lemma quiet_console_error (s : string) : quiet (console_error s).
Proof. split; [repeat constructor | discriminate]. Qed.

Lemma quiet_bind {A B} (m : M A) (k : A -> M B) :
  quiet m -> (forall a, quiet (k a)) -> quiet (bind m k).
Proof.
  destruct m as [t [a|e|c]]; intros [Ht Hr] Hk; cbn in *.
  - destruct (k a) as [t' r] eqn:E. specialize (Hk a). rewrite E in Hk.
    destruct Hk as [Ht' Hr']. split; cbn in *; [|exact Hr'].
    apply Forall_app. now split.
  - split; [exact Ht | discriminate].
  - now contradiction (Hr c).
Qed.

Lemma quiet_handler (e : exn) : quiet (handler e).
Proof.
  destruct e; cbn; [apply quiet_console_error .. | apply quiet_ret].
Qed.

Context {P : Platform}.
Variable w : World.

Lemma quiet_renderMarkdown (o : Options) : quiet (renderMarkdown w o).
Proof.
  unfold renderMarkdown.
  repeat (apply quiet_bind; [|intros ?]);
    try (apply quiet_call; reflexivity).
  destruct (outputHTML o); [apply quiet_call; reflexivity | apply quiet_ret].
Qed.

(** With [process.exit] in the [finally] block, whatever the body and
    the handler record is followed by one [Exit]. *)
Lemma try_catch_finally_exit (body : M unit) (h : exn -> M unit) (code : Z) :
  quiet body -> (forall e, quiet (h e)) ->
  exists t, try_catch_finally body h (process_exit code)
            = ((t ++ [Exit code])%list, Exited code)
            /\ Forall (fun ev => is_exit ev = false) t.
Proof.
  intros [Hb Hr] Hh. destruct body as [t [[]|e|c]]; cbn in *.
  - exists t. now split.
  - destruct (Hh e) as [Ht He]. destruct (h e) as [t' [[]|e'|c']]; cbn in *.
    + exists (t ++ t')%list. rewrite app_assoc. split; [reflexivity|].
      apply Forall_app. now split.
    + exists (t ++ t')%list. rewrite app_assoc. split; [reflexivity|].
      apply Forall_app. now split.
    + now contradiction (He c').
  - now contradiction (Hr c).
Qed.

End Quiet.

(** C7: every invocation of [main] -- success, parameter error or
    unknown error, whatever the outside answers -- ends the process with
    exit status 0: the trace ends with [Exit 0], which is its only
    [Exit], and the outcome is [Exited 0]. *)
Theorem C7_main_always_exits_0 {P : Platform} (w : World)
  (args : list string) (cwd : string) :
  exists t, main w args cwd = ((t ++ [Exit 0%Z])%list, Exited 0%Z)
            /\ forall c, ~ In (Exit c) t.
Proof.
  destruct (@try_catch_finally_exit
              (options <- lift (new_Options args cwd) ;;
               console_log msg_start ;;;
               renderMarkdown w options ;;;
               console_log msg_done)
              handler 0%Z) as (t & Ht & Hq).
  - apply quiet_bind; [apply quiet_lift | intros o].
    apply quiet_bind; [apply quiet_console_log | intros _].
    apply quiet_bind; [apply quiet_renderMarkdown | intros _].
    apply quiet_console_log.
  - apply quiet_handler.
  - exists t. split; [exact Ht|].
    intros c Hin. rewrite Forall_forall in Hq. now apply Hq in Hin.
Qed.

(** ** Parameter resolution *)

Lemma posix_resolve_nonempty (process_cwd from to : string) :
  Posix.resolve process_cwd from to <> "".
Proof.
  unfold Posix.resolve.
  destruct (fold_left Posix.resolve_step [to; from; process_cwd] ("", false))
    as [rp abs].
  destruct abs; cbn; [discriminate|].
  destruct (String.eqb_spec
              (JS.join "/" (Posix.normalize true (JS.split "/" rp) [])) "");
    [discriminate | assumption].
Qed.

Section Resolution.
Context {P : Platform}.
Import JS JSFacts.

Lemma last_value_app (k : string) (args1 args2 : list string) (a : string) :
  key_of a = k ->
  existsb (fun x => key_of x =? k) args2 = false ->
  last_value k (args1 ++ a :: args2) = Some (value_of a).
Proof.
  intros Hk H2. apply last_value_none in H2.
  induction args1 as [|b args1 IH]; cbn.
  - rewrite H2, Hk, String.eqb_refl. reflexivity.
  - now rewrite IH.
Qed.

Lemma check_src (o' o : Options) : check o' = Ok o -> src o = src o'.
Proof.
  unfold check. destruct (src o' =? ""); [discriminate|].
  destruct (out o' =? ""); intros H; inversion H; reflexivity.
Qed.

Lemma check_browser (o' o : Options) :
  check o' = Ok o -> browser o = browser o'.
Proof.
  unfold check. destruct (src o' =? ""); [discriminate|].
  destruct (out o' =? ""); intros H; inversion H; reflexivity.
Qed.

Lemma check_out (o' o : Options) :
  check o' = Ok o ->
  out o = if out o' =? "" then replace (src o') ".md" ".pdf" else out o'.
Proof.
  unfold check. destruct (src o' =? ""); [discriminate|].
  destruct (out o' =? ""); intros H; inversion H; reflexivity.
Qed.

Lemma new_Options_inv (args : list string) (cwd : string) (o : Options) :
  new_Options args cwd = Ok o ->
  exists o', forEach cwd args default_options = Ok o' /\ check o' = Ok o.
Proof.
  unfold new_Options.
  destruct (forEach cwd args default_options) as [o'|e]; cbn;
    [now exists o' | discriminate].
Qed.

(** The resolved fields, from the last occurrences of the keys. *)
Lemma new_Options_fields (args : list string) (cwd : string) (o : Options) :
  new_Options args cwd = Ok o ->
  (forall v, last_value "--src" args = Some v ->
             src o = resolve cwd (with_ext v ".md"))
  /\ (forall v, last_value "--out" args = Some v ->
                resolve cwd (with_ext v ".pdf") <> "" ->
                out o = resolve cwd (with_ext v ".pdf"))
  /\ (forall v, last_value "--browser" args = Some v -> browser o = v)
  /\ (last_value "--out" args = None ->
      out o = replace (src o) ".md" ".pdf").
Proof.
  intros H. destruct (new_Options_inv _ _ H) as (o' & Hf & Hc).
  destruct (forEach_fields _ _ _ Hf) as (Hs & Ho & Hb & _).
  rewrite (check_src _ Hc), (check_browser _ Hc), (check_out _ Hc).
  repeat split.
  - intros v Hv. now rewrite Hs, Hv.
  - intros v Hv Hne. rewrite Ho, Hv.
    apply String.eqb_neq in Hne. now rewrite Hne.
  - intros v Hv. now rewrite Hb, Hv.
  - intros Hv. rewrite Ho, Hv. reflexivity.
Qed.

End Resolution.

(** C5: resolution fails -- always with the parameter error -- exactly
    when the argument list is malformed: it holds an unrecognized key, or
    a value key whose argument lacks [=] or carries an empty or a
    multi-part value, or no argument sets [--src] to a non-empty value.
    Then [main] prints the usage message and exits, and no rendering step
    runs.  ([path.resolve] never returns the empty string.) *)
Theorem C5_parameter_error_iff_malformed {P : Platform}
  (resolve_nonempty : forall from to, resolve from to <> "")
  (args : list string) (cwd : string) :
  (new_Options args cwd = Throw SyntaxError <-> malformed args = true)
  /\ (forall e, new_Options args cwd = Throw e -> e = SyntaxError)
  /\ (malformed args = true ->
      forall w, main w args cwd
                = ([ConsoleError msg_usage; Exit 0%Z], Exited 0%Z)).
Proof.
  split; [now apply new_Options_throw_iff|].
  split; [apply new_Options_throws|].
  intros Hm w. apply (new_Options_throw_iff resolve_nonempty args cwd) in Hm.
  unfold main. rewrite Hm. reflexivity.
Qed.

Lemma C5_witness :
  (forall from to, @resolve posix from to <> "")
  /\ malformed ["--src=x"; "--unknown"] = true
  /\ @new_Options posix ["--src=x"; "--unknown"] "/docs" = Throw SyntaxError
  /\ forall w, @main posix w ["--src=x"; "--unknown"] "/docs"
               = ([ConsoleError msg_usage; Exit 0%Z], Exited 0%Z).
Proof.
  pose proof (@C5_parameter_error_iff_malformed posix
                (posix_resolve_nonempty "/") ["--src=x"; "--unknown"] "/docs")
    as (Hiff & _ & Hmain).
  split; [exact (posix_resolve_nonempty "/")|].
  split; [reflexivity|].
  split; [apply Hiff; reflexivity|].
  apply Hmain. reflexivity.
Defined.

(** C6: every valid argument list resolves, and in the configuration a
    [--src] value that lacks the [.md] extension is resolved against the
    working directory with [.md] appended, while one that ends in [.md]
    is resolved as it is; the same holds for [--out] with [.pdf].  (The
    argument is the last one of its key; [path.resolve] never returns
    the empty string.) *)
Theorem C6_extension_appended_when_missing {P : Platform}
  (resolve_nonempty : forall from to, resolve from to <> "")
  (args1 args2 : list string) (v cwd : string) :
  (malformed (args1 ++ ("--src=" ++ v) :: args2) = false ->
   existsb (fun a => key_of a =? "--src") args2 = false ->
   exists o,
     new_Options (args1 ++ ("--src=" ++ v) :: args2) cwd = Ok o
     /\ ((forall p, v <> p ++ ".md") -> src o = resolve cwd (v ++ ".md"))
     /\ ((exists p, v = p ++ ".md") -> src o = resolve cwd v))
  /\
  (malformed (args1 ++ ("--out=" ++ v) :: args2) = false ->
   existsb (fun a => key_of a =? "--out") args2 = false ->
   exists o,
     new_Options (args1 ++ ("--out=" ++ v) :: args2) cwd = Ok o
     /\ ((forall p, v <> p ++ ".pdf") -> out o = resolve cwd (v ++ ".pdf"))
     /\ ((exists p, v = p ++ ".pdf") -> out o = resolve cwd v)).
Proof.
  assert (Hresolves : forall args, malformed args = false ->
                                   exists o, new_Options args cwd = Ok o).
  { intros args Hm.
    destruct (new_Options args cwd) as [o|e] eqn:E; [now exists o|].
    pose proof (new_Options_throws _ _ E); subst e.
    apply (new_Options_throw_iff resolve_nonempty) in E. congruence. }
  split; intros Hvalid Hlast; destruct (Hresolves _ Hvalid) as [o H];
    exists o; (split; [exact H|]);
    destruct (new_Options_fields _ _ H) as (Hs & Ho & _);
    [ specialize (Hs v (last_value_app args1 args2 ("--src=" ++ v) eq_refl Hlast))
    | specialize (Ho v (last_value_app args1 args2 ("--out=" ++ v) eq_refl Hlast)
                    (resolve_nonempty _ _)) ];
    unfold with_ext in *.
  - split.
    + intros Hno. destruct (JS.endsWith v ".md") eqn:E; [|exact Hs].
      apply JSFacts.endsWith_spec in E as [p Hp]. now contradiction (Hno p).
    + intros Hyes. apply JSFacts.endsWith_spec in Hyes. now rewrite Hyes in Hs.
  - split.
    + intros Hno. destruct (JS.endsWith v ".pdf") eqn:E; [|exact Ho].
      apply JSFacts.endsWith_spec in E as [p Hp]. now contradiction (Hno p).
    + intros Hyes. apply JSFacts.endsWith_spec in Hyes. now rewrite Hyes in Ho.
Qed.

Lemma C6_witness :
  (forall from to, @resolve posix from to <> "")
  /\ (exists o,
        @new_Options posix
          ["--src=paper.md"; "--out=out/final"; "--outputHTML"] "/docs" = Ok o
        /\ src o = "/docs/paper.md")
  /\ (exists o,
        @new_Options posix
          ["--src=paper.md"; "--out=out/final"; "--outputHTML"] "/docs" = Ok o
        /\ out o = "/docs/out/final.pdf").
Proof.
  pose proof (@C6_extension_appended_when_missing posix
                (posix_resolve_nonempty "/")
                [] ["--out=out/final"; "--outputHTML"] "paper.md" "/docs")
    as [Hsrc _].
  pose proof (@C6_extension_appended_when_missing posix
                (posix_resolve_nonempty "/")
                ["--src=paper.md"] ["--outputHTML"] "out/final" "/docs")
    as [_ Hout].
  split; [exact (posix_resolve_nonempty "/")|].
  split.
  - destruct (Hsrc eq_refl eq_refl) as (o & Ho & _ & Hyes).
    exists o. split; [exact Ho|].
    rewrite Hyes; [reflexivity | now exists "paper"].
  - destruct (Hout eq_refl eq_refl) as (o & Ho & Hno & _).
    exists o. split; [exact Ho|].
    rewrite Hno; [reflexivity|].
    intros p Hp. apply (f_equal (fun s => JS.endsWith s ".pdf")) in Hp.
    rewrite JSFacts.endsWith_app in Hp. discriminate Hp.
Defined.

(** C10: the arguments are processed from left to right; when a value
    key occurs several times with well-formed values the configuration
    holds the value of its last occurrence; and repeating a key is no
    error: every argument list that is not malformed resolves.
    ([path.resolve] never returns the empty string.) *)
Theorem C10_last_occurrence_wins {P : Platform}
  (resolve_nonempty : forall from to, resolve from to <> "")
  (args : list string) (cwd : string) :
  (forall a this,
     forEach cwd (args ++ [a]) this
     = bindR (forEach cwd args this) (fun o => parse_arg cwd o a))
  /\ (forall o, new_Options args cwd = Ok o ->
        (forall v, last_value "--src" args = Some v ->
                   src o = resolve cwd (with_ext v ".md"))
        /\ (forall v, last_value "--out" args = Some v ->
                      out o = resolve cwd (with_ext v ".pdf"))
        /\ (forall v, last_value "--browser" args = Some v -> browser o = v))
  /\ (malformed args = false -> exists o, new_Options args cwd = Ok o).
Proof.
  split; [|split].
  - intros a this. rewrite forEach_app. cbn [forEach].
    destruct (forEach cwd args this) as [o|e]; cbn; [|reflexivity].
    now destruct (parse_arg cwd o a).
  - intros o H. destruct (new_Options_fields _ _ H) as (Hs & Ho & Hb & _).
    repeat split; auto.
  - intros Hm. destruct (new_Options args cwd) as [o|e] eqn:E; [now exists o|].
    pose proof (new_Options_throws _ _ E); subst e.
    apply (new_Options_throw_iff resolve_nonempty) in E. congruence.
Qed.

Lemma C10_witness :
  (forall from to, @resolve posix from to <> "")
  /\ (exists o,
        @new_Options posix
          ["--src=a"; "--browser=x"; "--src=b"; "--out=c"; "--browser=y";
           "--out=d"] "/docs" = Ok o
        /\ src o = "/docs/b.md" /\ out o = "/docs/d.pdf" /\ browser o = "y").
Proof.
  pose proof (@C10_last_occurrence_wins posix (posix_resolve_nonempty "/")
                ["--src=a"; "--browser=x"; "--src=b"; "--out=c"; "--browser=y";
                 "--out=d"] "/docs") as (_ & Hlast & Hok).
  split; [exact (posix_resolve_nonempty "/")|].
  destruct (Hok eq_refl) as [o Ho]. exists o. split; [exact Ho|].
  destruct (Hlast o Ho) as (Hs & Hout & Hb).
  rewrite (Hs "b" eq_refl), (Hout "d" eq_refl), (Hb "y" eq_refl).
  repeat split; reflexivity.
Defined.

(** C3, as the code has it: a value appended to a flag key is ignored.
    [--outputHTML=v] and [--showTitle=v] set their flag to true whatever
    [v] is, and the argument list resolves as it does with the bare flag;
    no parameter error comes from the appended value. *)
Theorem C3_flag_value_ignored {P : Platform}
  (args1 args2 : list string) (v cwd : string) :
  (forall this,
     parse_arg cwd this ("--outputHTML=" ++ v) = Ok (set_outputHTML this true))
  /\ (forall this,
        parse_arg cwd this ("--showTitle=" ++ v) = Ok (set_showTitle this true))
  /\ new_Options (args1 ++ ("--outputHTML=" ++ v) :: args2) cwd
     = new_Options (args1 ++ "--outputHTML" :: args2) cwd
  /\ new_Options (args1 ++ ("--showTitle=" ++ v) :: args2) cwd
     = new_Options (args1 ++ "--showTitle" :: args2) cwd.
Proof.
  assert (H1 : forall this,
             parse_arg cwd this ("--outputHTML=" ++ v)
             = Ok (set_outputHTML this true))
    by (intros this; rewrite parse_arg_spec; reflexivity).
  assert (H2 : forall this,
             parse_arg cwd this ("--showTitle=" ++ v)
             = Ok (set_showTitle this true))
    by (intros this; rewrite parse_arg_spec; reflexivity).
  split; [exact H1|]. split; [exact H2|].
  split; unfold new_Options; rewrite !forEach_app;
    destruct (forEach cwd args1 default_options) as [o|e]; cbn [bindR forEach];
    reflexivity.
Qed.

(** C3, as the specification states it, fails: [--outputHTML=true] is
    accepted. *)
Lemma C3_counterexample : ~ @flag_values_rejected posix.
Proof.
  intros H.
  specialize (H ["--src=paper"; "--outputHTML=true"] "/docs" eq_refl).
  discriminate H.
Qed.

(** ** The runs of [renderMarkdown] *)

(** Case analysis on what the outside answers, call after call. *)
Ltac world_cases :=
  repeat (match goal with
  | |- context [call _ ?r] =>
      lazymatch r with
      | Ok _ => fail
      | Throw _ => fail
      | _ => let E := fresh "Ecall" in destruct r as [?|?] eqn:E
      end
  | |- context [if outputHTML ?o then _ else _] =>
      let E := fresh "Ehtml" in destruct (outputHTML o) eqn:E
  | x : unit |- _ => destruct x
  end; cbn [bind call ret app fst snd]).

(** Membership in a trace that is written out. *)
Ltac in_trace H :=
  cbn [In] in H;
  repeat (let H' := fresh H in destruct H as [H'|H];
          [try discriminate H'; try (inversion H'; subst; try clear H');
           try subst|]);
  try contradiction.

Section Runs.
Context {P : Platform}.
Variable w : World.

(** Every document that leaves [renderMarkdown] is the template filled
    with the title, the stylesheet and the fragment. *)
Lemma documents_composed (o : Options) (d : string) :
  In d (documents (fst (renderMarkdown w o))) ->
  exists css html,
    stylesheet w = Ok css /\ fragment w o = Ok html
    /\ d = web_template (title_of o) css html.
Proof.
  unfold stylesheet, fragment, renderMarkdown.
  world_cases; cbn [documents In bindR]; intros H;
    repeat (destruct H as [H|H]); try contradiction; subst; eauto.
Qed.

(** [page.pdf] is only ever called with the options built from the
    configuration. *)
Lemma pdf_called_with (o : Options) (po : PDFOptions) :
  In (Pdf po) (fst (renderMarkdown w o)) -> po = pdf_options o.
Proof.
  unfold renderMarkdown.
  world_cases; intros H; in_trace H; reflexivity.
Qed.

End Runs.

Lemma pdf_step_after (pre : list event) (x : event) :
  forall (post t1 : list event) (ev : event) (t2 : list event),
    (pre ++ x :: post)%list = (t1 ++ ev :: t2)%list ->
    Forall (fun e => pdf_step e = false) pre ->
    pdf_step x = false -> pdf_step ev = true ->
    In x t1.
Proof.
  induction pre as [|a pre IH]; intros post t1 ev t2 H Hpre Hx Hev.
  - destruct t1 as [|b t1]; cbn in H; inversion H; subst.
    + congruence.
    + now left.
  - inversion Hpre as [|? ? Ha Hpre']; subst.
    destruct t1 as [|b t1]; cbn in H; inversion H; subst.
    + congruence.
    + right. eapply IH; eauto.
Qed.

Lemma no_pdf_step (t t1 : list event) (ev : event) (t2 : list event) :
  t = (t1 ++ ev :: t2)%list ->
  Forall (fun e => pdf_step e = false) t ->
  pdf_step ev = true -> False.
Proof.
  intros -> H Hev. rewrite Forall_forall in H.
  specialize (H ev (in_elt ev t1 t2)). congruence.
Qed.

(** C9: the composed document depends on nothing but the source path
    (through the title), the rendered fragment and the stylesheet.  Two
    runs that agree on these hand out the same document, byte for byte,
    to the file system and to the page -- whatever else differs between
    the two configurations and between the two worlds. *)
Theorem C9_composer_deterministic {P : Platform} (w1 w2 : World)
  (o1 o2 : Options) (d1 d2 : string) :
  src o1 = src o2 ->
  fragment w1 o1 = fragment w2 o2 ->
  stylesheet w1 = stylesheet w2 ->
  In d1 (documents (fst (renderMarkdown w1 o1))) ->
  In d2 (documents (fst (renderMarkdown w2 o2))) ->
  d1 = d2.
Proof.
  intros Hsrc Hfrag Hcss H1 H2.
  apply documents_composed in H1 as (css1 & html1 & Hc1 & Hf1 & ->).
  apply documents_composed in H2 as (css2 & html2 & Hc2 & Hf2 & ->).
  unfold title_of. rewrite Hsrc. congruence.
Qed.

Lemma C9_witness :
  nth 0 (documents (fst (@renderMarkdown posix
           (fine_world "# t" "h1{}" "<h1>t</h1>") posix_paper_final))) ""
  = nth 0 (documents (fst (@renderMarkdown posix no_pdf_world
             (set_showTitle (set_out posix_paper_final "/tmp/x.pdf") true)))) "".
Proof.
  apply (@C9_composer_deterministic posix
           (fine_world "# t" "h1{}" "<h1>t</h1>") no_pdf_world
           posix_paper_final
           (set_showTitle (set_out posix_paper_final "/tmp/x.pdf") true)).
  - reflexivity.
  - reflexivity.
  - reflexivity.
  - left. reflexivity.
  - left. reflexivity.
Defined.

(** ** The HTML file and the browser *)

Section Emission.
Context {P : Platform}.
Variable w : World.

Lemma no_write_without_flag (o : Options) :
  outputHTML o = false ->
  forall p d, ~ In (WriteFile p d) (fst (renderMarkdown w o)).
Proof.
  unfold renderMarkdown.
  world_cases; intros Hflag p d H; try discriminate Hflag; in_trace H.
Qed.

Lemma write_precedes_pdf (o : Options) :
  outputHTML o = true ->
  forall t1 ev t2,
    fst (renderMarkdown w o) = (t1 ++ ev :: t2)%list ->
    pdf_step ev = true ->
    exists css html,
      stylesheet w = Ok css /\ fragment w o = Ok html
      /\ In (WriteFile (html_path o) (web_template (title_of o) css html)) t1
      /\ fs_writeFile w (html_path o) (web_template (title_of o) css html)
         = Ok tt.
Proof.
  unfold stylesheet, fragment, renderMarkdown.
  world_cases; cbn [bindR]; intros Hflag t1 ev t2 H Hev;
    try discriminate Hflag;
    first
      [ exfalso; eapply no_pdf_step;
        [exact H | solve [repeat constructor] | exact Hev]
      | do 2 eexists; split; [reflexivity|]; split; [eassumption|];
        split; [|eassumption];
        eapply (@pdf_step_after [_; _; _]);
        [exact H | solve [repeat constructor] | reflexivity | exact Hev] ].
Qed.

Lemma write_failure_aborts (o : Options) (p d : string) (e : exn) :
  In (WriteFile p d) (fst (renderMarkdown w o)) ->
  fs_writeFile w p d = Throw e ->
  snd (renderMarkdown w o) = Thrown e
  /\ forall ev, In ev (fst (renderMarkdown w o)) -> pdf_step ev = false.
Proof.
  unfold renderMarkdown.
  world_cases; intros H Hthrow; in_trace H; try congruence;
    (split; [congruence|]; intros ev Hev; in_trace Hev; reflexivity).
Qed.




End Emission.

(** With the flag set, the HTML file is written as soon as the source
    and the stylesheet have been read and the source converted. *)
Lemma write_happens {P : Platform} (w : World) (o : Options)
  (md html css : string) :
  outputHTML o = true ->
  fs_readFile w (src o) = Ok md ->
  marked w md = Ok html ->
  fs_readFile w (resolve meta_dir "../css/APS.css") = Ok css ->
  In (WriteFile (JS.replace (src o) ".md" ".html")
                (web_template (title_of o) css html))
     (fst (renderMarkdown w o)).
Proof.
  intros Hflag Hmd Hhtml Hcss. unfold renderMarkdown.
  rewrite Hmd. cbn [bind call]. rewrite Hhtml. cbn [bind call].
  rewrite Hcss. cbn [bind call]. rewrite Hflag.
  world_cases; do 3 right; left; reflexivity.
Qed.

(** The HTML file and the PDF, in this order.  With the flag set and
    the three inputs in hand the composed document is written to
    [src.replace('.md', '.html')]; whenever a step of PDF emission
    (launch, page creation, content load, pagination, close) runs, that
    write has already been made, successfully; a write that fails makes
    [renderMarkdown] throw that failure with no step of PDF emission in
    the trace; without the flag nothing is written. *)
Theorem html_written_before_pdf {P : Platform} (w : World) (o : Options) :
  (outputHTML o = false ->
   forall p d, ~ In (WriteFile p d) (fst (renderMarkdown w o)))
  /\ (outputHTML o = true ->
      forall md html css,
        fs_readFile w (src o) = Ok md ->
        marked w md = Ok html ->
        fs_readFile w (resolve meta_dir "../css/APS.css") = Ok css ->
        In (WriteFile (JS.replace (src o) ".md" ".html")
                      (web_template (title_of o) css html))
           (fst (renderMarkdown w o)))
  /\ (outputHTML o = true ->
      forall t1 ev t2,
        fst (renderMarkdown w o) = (t1 ++ ev :: t2)%list ->
        pdf_step ev = true ->
        exists css html,
          stylesheet w = Ok css /\ fragment w o = Ok html
          /\ In (WriteFile (JS.replace (src o) ".md" ".html")
                           (web_template (title_of o) css html)) t1
          /\ fs_writeFile w (JS.replace (src o) ".md" ".html")
                          (web_template (title_of o) css html) = Ok tt)
  /\ (forall p d e,
        In (WriteFile p d) (fst (renderMarkdown w o)) ->
        fs_writeFile w p d = Throw e ->
        snd (renderMarkdown w o) = Thrown e
        /\ forall ev, In ev (fst (renderMarkdown w o)) -> pdf_step ev = false).
Proof.
  split; [apply no_write_without_flag|].
  split; [intros Hflag md html css; now apply write_happens|].
  split; [apply write_precedes_pdf|].
  intros p d e. apply write_failure_aborts.
Qed.

Lemma html_written_before_pdf_witness :
  In (WriteFile "/docs/paper.html" (web_template "paper" "h1{}" "<h1>t</h1>"))
     [ReadFile "/docs/paper.md"; Marked "# t"; ReadFile "/app/css/APS.css";
      WriteFile "/docs/paper.html" (web_template "paper" "h1{}" "<h1>t</h1>")]
  /\ In (WriteFile "/docs/paper.html" (web_template "paper" "h1{}" "<h1>t</h1>"))
        (fst (@renderMarkdown posix (fine_world "# t" "h1{}" "<h1>t</h1>")
                posix_paper_final)).
Proof.
  destruct (@html_written_before_pdf posix
              (fine_world "# t" "h1{}" "<h1>t</h1>") posix_paper_final)
    as (_ & Hlive & Hbefore & _).
  split.
  - destruct (Hbefore eq_refl
                [ReadFile "/docs/paper.md"; Marked "# t";
                 ReadFile "/app/css/APS.css";
                 WriteFile "/docs/paper.html"
                           (web_template "paper" "h1{}" "<h1>t</h1>")]
                (Launch (browser default_options))
                [NewPage; SetContent (web_template "paper" "h1{}" "<h1>t</h1>");
                 Pdf (pdf_options posix_paper_final); Close]
                eq_refl eq_refl)
      as (css & html & Hcss & Hhtml & Hin & _).
    injection Hcss as <-. injection Hhtml as <-. exact Hin.
  - exact (Hlive eq_refl "# t" "<h1>t</h1>" "h1{}" eq_refl eq_refl eq_refl).
Defined.

(** C8, on the code: with [--src=my.mdnotes/paper --outputHTML] in
    [/docs] the source path is [/docs/my.mdnotes/paper.md], and the
    composed document is written -- before the browser is launched -- to
    [/docs/my.htmlnotes/paper.md]: the first [.md] of the path was
    replaced, not the extension, so the file is not
    [/docs/my.mdnotes/paper.html] beside the source. *)
Theorem C8_html_path_replaces_first_md :
  @new_Options posix ["--src=my.mdnotes/paper"; "--outputHTML"] "/docs"
  = Ok posix_mdnotes
  /\ fst (@renderMarkdown posix (fine_world "# t" "h1{}" "<h1>t</h1>")
            posix_mdnotes)
     = [ReadFile "/docs/my.mdnotes/paper.md"; Marked "# t";
        ReadFile "/app/css/APS.css";
        WriteFile "/docs/my.htmlnotes/paper.md"
                  (web_template "paper" "h1{}" "<h1>t</h1>");
        Launch (browser default_options); NewPage;
        SetContent (web_template "paper" "h1{}" "<h1>t</h1>");
        Pdf (pdf_options posix_mdnotes); Close]
  /\ "/docs/my.htmlnotes/paper.md" <> "/docs/my.mdnotes/paper" ++ ".html".
Proof.
  split; [reflexivity|]. split; [reflexivity | discriminate].
Qed.




(** ** The header template *)

Lemma includes_between (a x y z b : string) :
  JS.includes (a ++ x ++ y ++ z ++ b) (x ++ y ++ z) = true.
Proof.
  replace (a ++ x ++ y ++ z ++ b) with (a ++ (x ++ y ++ z) ++ b)
    by now rewrite !JSFacts.append_assoc.
  apply JSFacts.includes_app.
Qed.

(** The composed document carries the title in its [title] element. *)
Lemma title_in_document (title css html : string) :
  JS.includes (web_template title css html) ("<title>" ++ title ++ "</title>")
  = true.
Proof.
  exact (includes_between
           (nl ++ "    <!DOCTYPE html>" ++
            nl ++ "    <html lang=" ++ dq ++ "zh-CN" ++ dq ++ ">" ++
            nl ++ "    <head>" ++
            nl ++ "      <meta charset=" ++ dq ++ "UTF-8" ++ dq ++ ">" ++
            nl ++ "      ")
           "<title>" title "</title>"
           (nl ++ "      <style>" ++ css ++ "</style>" ++
            nl ++ "    </head>" ++
            nl ++ "    <body>" ++
            nl ++ "      " ++ html ++
            nl ++ "    </body>" ++
            nl ++ "    </html>" ++
            nl ++ "  ")).
Qed.

Lemma startsWith_md_app (s : string) :
  s <> "" ->
  JS.startsWith s ".md" = false ->
  JS.startsWith (s ++ ".md") ".md" = false.
Proof.
  destruct s as [|c1 [|c2 [|c3 s]]]; cbn; intros Hs H;
    try congruence;
    destruct (Ascii.eqb "." c1); cbn in *; try reflexivity;
    destruct (Ascii.eqb "m" c2); cbn in *; try reflexivity;
    destruct (Ascii.eqb "d" c3); cbn in *; try reflexivity;
    discriminate H.
Qed.

(** Where [.md] occurs only at the end of the source path, the
    replacement swaps the extension. *)
Lemma replace_extension (p rep : string) :
  JS.includes p ".md" = false ->
  JS.replace (p ++ ".md") ".md" rep = p ++ rep.
Proof.
  induction p as [|c p IH]; intros H.
  - cbn. now rewrite JSFacts.append_nil_r.
  - cbn [JS.includes] in H. apply orb_false_elim in H as [H1 H2].
    change (String c p ++ ".md") with (String c (p ++ ".md")).
    cbn [JS.replace].
    change (String c (p ++ ".md")) with (String c p ++ ".md").
    rewrite startsWith_md_app; [|discriminate | exact H1].
    cbn. now rewrite (IH H2).
Qed.

(** C4, as the code has it: without the flag the header template is
    [<div></div>]; with it the header template is one fixed string,
    whatever the source path, which holds the [<span class="title">]
    placeholder; for a source file name [q.md] that holds [.md] at its
    end only, the title [q] stands in the [title] element of the composed
    document, not in the header template.  [page.pdf] receives exactly
    this template. *)
Theorem C4_header_template {P : Platform} (w : World) (o : Options) :
  (forall po, In (Pdf po) (fst (renderMarkdown w o)) ->
              headerTemplate po
              = if showTitle o then header_with_title else "<div></div>")
  /\ (showTitle o = false -> headerTemplate (pdf_options o) = "<div></div>")
  /\ (showTitle o = true -> headerTemplate (pdf_options o) = header_with_title)
  /\ JS.includes header_with_title title_placeholder = true
  /\ (forall q css html,
        basename (src o) = q ++ ".md" ->
        JS.includes q ".md" = false ->
        forall d, In d (documents (fst (renderMarkdown w o))) ->
                  stylesheet w = Ok css -> fragment w o = Ok html ->
                  d = web_template q css html
                  /\ JS.includes d ("<title>" ++ q ++ "</title>") = true).
Proof.
  split; [|split; [|split; [|split]]].
  - intros po H. apply pdf_called_with in H. subst po. reflexivity.
  - intros H. cbn. now rewrite H.
  - intros H. cbn. now rewrite H.
  - reflexivity.
  - intros q css html Hq Hnone d Hd Hcss Hhtml.
    apply documents_composed in Hd as (css' & html' & Hc' & Hf' & ->).
    assert (Htitle : title_of o = q).
    { unfold title_of. rewrite Hq, (@replace_extension q "" Hnone).
      apply JSFacts.append_nil_r. }
    rewrite Htitle.
    assert (css' = css) by congruence. assert (html' = html) by congruence.
    subst. split; [reflexivity | apply title_in_document].
Qed.

Lemma C4_witness :
  headerTemplate (pdf_options posix_paper_final) = "<div></div>"
  /\ headerTemplate (pdf_options (set_showTitle posix_paper_final true))
     = header_with_title
  /\ JS.includes (web_template "paper" "h1{}" "<h1>t</h1>")
                 "<title>paper</title>" = true.
Proof.
  destruct (@C4_header_template posix (fine_world "# t" "h1{}" "<h1>t</h1>")
              posix_paper_final) as (_ & Hoff & _ & _ & Htitle).
  destruct (@C4_header_template posix no_page_world
              (set_showTitle posix_paper_final true)) as (_ & _ & Hon & _).
  split; [apply Hoff; reflexivity|].
  split; [apply Hon; reflexivity|].
  destruct (Htitle "paper" "h1{}" "<h1>t</h1>" eq_refl eq_refl
              (web_template "paper" "h1{}" "<h1>t</h1>")) as [_ Hin];
    [ left; reflexivity | reflexivity | reflexivity | exact Hin ].
Defined.

(** C4, as the specification states it, fails: for [/docs/paper.md] the
    title is [paper], and the header template does not contain it. *)
Lemma C4_counterexample :
  ~ @header_shows_title posix (set_showTitle posix_paper_final true).
Proof.
  intros [_ H]. specialize (H eq_refl). vm_compute in H. discriminate H.
Qed.

(** ** The default output path *)

(** Without [--out], the output path is the source path with its first
    [.md] replaced. *)
Lemma default_out {P : Platform} (args : list string) (cwd : string)
  (o : Options) :
  new_Options args cwd = Ok o ->
  existsb (fun a => key_of a =? "--out") args = false ->
  out o = JS.replace (src o) ".md" ".pdf".
Proof.
  intros H Hout. apply last_value_none in Hout.
  now destruct (new_Options_fields _ _ H) as (_ & _ & _ & Hd); auto.
Qed.

(** So the default output path is the source path with [.pdf] for [.md]
    whenever the resolved source path holds [.md] at its end only. *)
Lemma default_out_swaps_extension {P : Platform} (args : list string)
  (cwd p : string) (o : Options) :
  new_Options args cwd = Ok o ->
  existsb (fun a => key_of a =? "--out") args = false ->
  src o = p ++ ".md" ->
  JS.includes p ".md" = false ->
  out o = p ++ ".pdf".
Proof.
  intros H Hout Hsrc Hp.
  rewrite (default_out _ _ H Hout), Hsrc. now apply replace_extension.
Qed.

(** C1, on the code: with [--src=my.mdnotes/paper] in [/docs] and no
    [--out], the source path is [/docs/my.mdnotes/paper.md] and the
    output path is [/docs/my.pdfnotes/paper.md] -- the first [.md] of the
    path was replaced, not the extension -- instead of
    [/docs/my.mdnotes/paper.pdf]. *)
Theorem C1_default_out_replaces_first_md :
  @new_Options posix ["--src=my.mdnotes/paper"] "/docs"
  = Ok {| src := "/docs/my.mdnotes/paper.md";
          out := "/docs/my.pdfnotes/paper.md";
          outputHTML := false; showTitle := false;
          browser := browser default_options |}
  /\ "/docs/my.pdfnotes/paper.md" <> "/docs/my.mdnotes/paper" ++ ".pdf".
Proof.
  split; [reflexivity | discriminate].
Qed.

(** * Further properties of the constructor *)

Section MoreResolution.
Context {P : Platform}.

Lemma check_flags (o' o : Options) :
  check o' = Ok o ->
  outputHTML o = outputHTML o' /\ showTitle o = showTitle o'.
Proof.
  unfold check. destruct (src o' =? ""); [discriminate|].
  destruct (out o' =? ""); intros H; inversion H; split; reflexivity.
Qed.

Lemma key_occurs_last_value (k : string) (args : list string) :
  existsb (fun a => key_of a =? k) args
  = match last_value k args with Some _ => true | None => false end.
Proof.
  destruct (last_value k args) eqn:E.
  - destruct (existsb (fun a => key_of a =? k) args) eqn:E'; [reflexivity|].
    apply last_value_none in E'. congruence.
  - now apply last_value_none.
Qed.

(** A flag is set exactly when its key occurs, anywhere and however
    often; nothing ever resets it. *)
Theorem flags_set_iff_present (args : list string) (cwd : string) (o : Options) :
  new_Options args cwd = Ok o ->
  outputHTML o = existsb (fun a => key_of a =? "--outputHTML") args
  /\ showTitle o = existsb (fun a => key_of a =? "--showTitle") args.
Proof.
  intros H. destruct (new_Options_inv _ _ H) as (o' & Hf & Hc).
  destruct (forEach_fields _ _ _ Hf) as (_ & _ & _ & Hh & Ht).
  destruct (check_flags _ Hc) as [-> ->]. now rewrite Hh, Ht.
Qed.

(** Without a [--browser] argument the browser is the Edge executable
    of a Windows installation, whatever the platform and the working
    directory. *)
Theorem browser_default (args : list string) (cwd : string) (o : Options) :
  new_Options args cwd = Ok o ->
  existsb (fun a => key_of a =? "--browser") args = false ->
  browser o = "C:\Program Files (x86)\Microsoft\Edge\Application\msedge.exe".
Proof.
  intros H Hb. apply last_value_none in Hb.
  destruct (new_Options_inv _ _ H) as (o' & Hf & Hc).
  destruct (forEach_fields _ _ _ Hf) as (_ & _ & Hbr & _).
  rewrite (check_browser _ Hc), Hbr, Hb. reflexivity.
Qed.

Lemma replace_nonempty (s pat rep : string) :
  s <> "" -> rep <> "" -> JS.replace s pat rep <> "".
Proof.
  intros Hs Hrep. destruct s as [|c s]; [congruence|].
  cbn [JS.replace]. destruct (JS.startsWith (String c s) pat).
  - destruct rep; [congruence | discriminate].
  - discriminate.
Qed.

(** A configuration that comes out of the constructor has a source path
    and an output path, both non-empty -- on every platform. *)
Theorem resolved_paths_nonempty (args : list string) (cwd : string)
  (o : Options) :
  new_Options args cwd = Ok o -> src o <> "" /\ out o <> "".
Proof.
  intros H. destruct (new_Options_inv _ _ H) as (o' & _ & Hc).
  unfold check in Hc.
  destruct (String.eqb_spec (src o') "") as [|Hs]; [discriminate|].
  destruct (String.eqb_spec (out o') "") as [|Ho]; inversion Hc; subst; cbn.
  - split; [exact Hs|]. apply replace_nonempty; [exact Hs | discriminate].
  - now split.
Qed.

(** The loop's result is a function of the last occurrence of every
    key. *)
Lemma forEach_determined (cwd : string) (args args' : list string)
  (this o o' : Options) :
  forEach cwd args this = Ok o ->
  forEach cwd args' this = Ok o' ->
  (forall k, last_value k args = last_value k args') ->
  o = o'.
Proof.
  intros H H' Hlast.
  destruct (forEach_fields _ _ _ H) as (Hs & Ho & Hb & Hh & Ht).
  destruct (forEach_fields _ _ _ H') as (Hs' & Ho' & Hb' & Hh' & Ht').
  rewrite !key_occurs_last_value in Hh, Ht, Hh', Ht'.
  rewrite <- !Hlast in *.
  destruct o, o'; cbn in *. congruence.
Qed.

Lemma new_Options_determined (cwd : string) (args args' : list string) :
  existsb malformed_arg args = existsb malformed_arg args' ->
  (forall k, last_value k args = last_value k args') ->
  new_Options args cwd = new_Options args' cwd.
Proof.
  intros Hm Hlast. unfold new_Options.
  destruct (existsb malformed_arg args) eqn:E; symmetry in Hm.
  - now rewrite !forEach_malformed.
  - destruct (forEach_well_formed cwd args default_options E) as [o Ho].
    destruct (forEach_well_formed cwd args' default_options Hm) as [o' Ho'].
    rewrite Ho, Ho'. now rewrite (@forEach_determined cwd args args' _ o o' Ho Ho' Hlast).
Qed.

Lemma existsb_permutation {A} (f : A -> bool) (l l' : list A) :
  Permutation l l' -> existsb f l = existsb f l'.
Proof.
  induction 1; cbn; try congruence.
  now destruct (f x), (f y).
Qed.

Lemma last_value_permutation (k : string) (l l' : list string) :
  Permutation l l' -> NoDup (map key_of l) ->
  last_value k l = last_value k l'.
Proof.
  induction 1 as [|x l l' Hp IH|x y l|l l' l'' Hp1 IH1 Hp2 IH2]; intros Hnd.
  - reflexivity.
  - cbn. inversion Hnd; subst. now rewrite IH.
  - cbn. destruct (last_value k l); [reflexivity|].
    destruct (String.eqb_spec (key_of x) k) as [Hx|Hx],
             (String.eqb_spec (key_of y) k) as [Hy|Hy]; try reflexivity.
    inversion Hnd as [|? ? Hnotin _]; subst. exfalso. apply Hnotin.
    left. congruence.
  - rewrite IH1 by exact Hnd. apply IH2.
    eapply Permutation_NoDup; [|exact Hnd]. now apply Permutation_map.
Qed.

(** When no key is repeated, the order of the arguments does not
    matter: every rearrangement resolves to the same configuration, or
    fails alike. *)
Theorem argument_order_irrelevant (args args' : list string) (cwd : string) :
  Permutation args args' ->
  NoDup (map key_of args) ->
  new_Options args cwd = new_Options args' cwd.
Proof.
  intros Hp Hnd. apply new_Options_determined.
  - now apply existsb_permutation.
  - intros k. now apply last_value_permutation.
Qed.

End MoreResolution.

Lemma flags_set_iff_present_witness :
  outputHTML posix_paper_final = true /\ showTitle posix_paper_final = false.
Proof.
  exact (@flags_set_iff_present posix
           ["--src=paper.md"; "--out=out/final"; "--outputHTML"] "/docs"
           posix_paper_final eq_refl).
Defined.

Lemma browser_default_witness :
  browser posix_paper_final
  = "C:\Program Files (x86)\Microsoft\Edge\Application\msedge.exe".
Proof.
  exact (@browser_default posix
           ["--src=paper.md"; "--out=out/final"; "--outputHTML"] "/docs"
           posix_paper_final eq_refl eq_refl).
Defined.

Lemma resolved_paths_nonempty_witness :
  src posix_paper_final <> "" /\ out posix_paper_final <> "".
Proof.
  exact (@resolved_paths_nonempty posix
           ["--src=paper.md"; "--out=out/final"; "--outputHTML"] "/docs"
           posix_paper_final eq_refl).
Defined.

Lemma argument_order_irrelevant_witness :
  @new_Options posix ["--src=paper.md"; "--out=out/final"; "--outputHTML"] "/docs"
  = @new_Options posix ["--outputHTML"; "--src=paper.md"; "--out=out/final"] "/docs".
Proof.
  apply (@argument_order_irrelevant posix).
  - apply perm_trans with ["--src=paper.md"; "--outputHTML"; "--out=out/final"].
    + apply perm_skip, perm_swap.
    + apply perm_swap.
  - repeat constructor; cbn; intuition discriminate.
Defined.

Lemma default_out_swaps_extension_witness :
  out posix_paper = "/docs/paper" ++ ".pdf".
Proof.
  exact (@default_out_swaps_extension posix ["--src=paper"] "/docs"
           "/docs/paper" posix_paper eq_refl eq_refl eq_refl eq_refl).
Defined.

(** ** The extension is optional *)

Section OptionalExtension.
Context {P : Platform}.

Lemma count_eq_app (a b : string) :
  count_eq (a ++ b) = (count_eq a + count_eq b)%nat.
Proof.
  induction a as [|c a IH]; cbn; [reflexivity|].
  destruct (Ascii.eqb c "="); cbn; now rewrite IH.
Qed.

Lemma app_nonempty (a b : string) : a <> "" -> a ++ b <> "".
Proof. destruct a; [congruence | discriminate]. Qed.

Lemma parse_src_value (cwd : string) (this : Options) (v : string) :
  parse_arg cwd this ("--src=" ++ v)
  = if (v =? "") || (1 <=? count_eq v)%nat then Throw SyntaxError
    else Ok (set_src this (resolve cwd (with_ext v ".md"))).
Proof. rewrite parse_arg_spec. reflexivity. Qed.

Lemma parse_out_value (cwd : string) (this : Options) (v : string) :
  parse_arg cwd this ("--out=" ++ v)
  = if (v =? "") || (1 <=? count_eq v)%nat then Throw SyntaxError
    else Ok (set_out this (resolve cwd (with_ext v ".pdf"))).
Proof. rewrite parse_arg_spec. reflexivity. Qed.

Lemma with_ext_idempotent (v ext : string) :
  with_ext (with_ext v ext) ext = with_ext v ext.
Proof.
  unfold with_ext. destruct (JS.endsWith v ext) eqn:E.
  - now rewrite E.
  - now rewrite JSFacts.endsWith_app.
Qed.

Lemma with_ext_guard (v ext : string) :
  v <> "" -> count_eq ext = 0%nat ->
  (with_ext v ext =? "") || (1 <=? count_eq (with_ext v ext))%nat
  = (v =? "") || (1 <=? count_eq v)%nat.
Proof.
  intros Hv Hext. unfold with_ext. destruct (JS.endsWith v ext); [reflexivity|].
  rewrite count_eq_app, Hext, Nat.add_0_r.
  rewrite (proj2 (String.eqb_neq _ _) Hv).
  now rewrite (proj2 (String.eqb_neq _ _) (app_nonempty ext Hv)).
Qed.

(** Writing the extension or leaving it out comes to the same: a
    non-empty [--src] value and the same value with [.md] put on it
    (where it was missing) resolve alike, and so for [--out] with
    [.pdf]. *)
Theorem extension_optional (args1 args2 : list string) (v cwd : string) :
  v <> "" ->
  new_Options (args1 ++ ("--src=" ++ with_ext v ".md") :: args2) cwd
  = new_Options (args1 ++ ("--src=" ++ v) :: args2) cwd
  /\ new_Options (args1 ++ ("--out=" ++ with_ext v ".pdf") :: args2) cwd
     = new_Options (args1 ++ ("--out=" ++ v) :: args2) cwd.
Proof.
  intros Hv. unfold new_Options. rewrite !forEach_app.
  destruct (forEach cwd args1 default_options) as [o|e]; cbn [bindR forEach];
    [|split; reflexivity].
  rewrite !parse_src_value, !parse_out_value, !with_ext_idempotent.
  rewrite !(with_ext_guard _ Hv) by reflexivity.
  split; reflexivity.
Qed.

End OptionalExtension.

Lemma extension_optional_witness :
  @new_Options posix ["--src=paper.md"; "--out=final.pdf"] "/docs"
  = @new_Options posix ["--src=paper"; "--out=final.pdf"] "/docs"
  /\ @new_Options posix ["--src=paper.md"; "--out=final.pdf"] "/docs"
     = @new_Options posix ["--src=paper.md"; "--out=final"] "/docs".
Proof.
  split.
  - apply (@extension_optional posix [] ["--out=final.pdf"] "paper" "/docs").
    discriminate.
  - apply (@extension_optional posix ["--src=paper.md"] [] "final" "/docs").
    discriminate.
Defined.

(** ** Validity does not depend on the place *)

Lemma new_Options_ok_iff {P : Platform}
  (resolve_nonempty : forall from to, resolve from to <> "")
  (args : list string) (cwd : string) :
  (exists o, new_Options args cwd = Ok o) <-> malformed args = false.
Proof.
  split.
  - intros [o Ho]. destruct (malformed args) eqn:E; [|reflexivity].
    apply (new_Options_throw_iff resolve_nonempty args cwd) in E. congruence.
  - intros Hm. destruct (new_Options args cwd) as [o|e] eqn:E; [now exists o|].
    pose proof (new_Options_throws _ _ E); subst e.
    apply (new_Options_throw_iff resolve_nonempty) in E. congruence.
Qed.

(** Whether an argument list resolves depends on the arguments alone:
    not on the working directory, and not on the platform's paths. *)
Theorem validity_independent_of_cwd (P1 P2 : Platform)
  (nonempty1 : forall from to, @resolve P1 from to <> "")
  (nonempty2 : forall from to, @resolve P2 from to <> "")
  (args : list string) (cwd1 cwd2 : string) :
  (exists o, @new_Options P1 args cwd1 = Ok o)
  <-> (exists o, @new_Options P2 args cwd2 = Ok o).
Proof.
  rewrite (new_Options_ok_iff nonempty1), (new_Options_ok_iff nonempty2).
  reflexivity.
Qed.

Lemma validity_independent_of_cwd_witness :
  exists o, @new_Options (Posix.platform "/home/u" "/opt/mdpdf/lib")
              ["--src=paper"] "notes" = Ok o.
Proof.
  apply (@validity_independent_of_cwd posix
           (Posix.platform "/home/u" "/opt/mdpdf/lib")
           (posix_resolve_nonempty "/") (posix_resolve_nonempty "/home/u")
           ["--src=paper"] "/docs" "notes").
  exists posix_paper. reflexivity.
Defined.

(** * Further properties of the pipeline *)

Section MoreRuns.
Context {P : Platform}.
Variable w : World.

(** With a configuration in hand, [main] prints the start message, runs
    [renderMarkdown], prints its report and exits. *)
Lemma main_valid (args : list string) (cwd : string) (o : Options) :
  new_Options args cwd = Ok o ->
  main w args cwd
  = ((ConsoleLog msg_start :: fst (renderMarkdown w o)
      ++ report (snd (renderMarkdown w o)) ++ [Exit 0%Z])%list,
     Exited 0%Z).
Proof.
  intros H. unfold main. rewrite H.
  destruct (quiet_renderMarkdown w o) as [_ Hq].
  cbn [lift bind console_log app].
  destruct (renderMarkdown w o) as [t [[]|e|c]]; cbn in *.
  - now rewrite <- !app_assoc.
  - destruct e; cbn; now rewrite <- ?app_assoc, ?app_nil_r.
  - now contradiction (Hq c).
Qed.

Lemma main_invalid (args : list string) (cwd : string) (e : exn) :
  new_Options args cwd = Throw e ->
  main w args cwd = ((fst (handler e) ++ [Exit 0%Z])%list, Exited 0%Z).
Proof.
  intros H. unfold main. rewrite H. now destruct e.
Qed.

Lemma render_no_console (o : Options) (ev : event) :
  In ev (fst (renderMarkdown w o)) ->
  match ev with
  | ConsoleLog _ | ConsoleError _ | Exit _ => False
  | _ => True
  end.
Proof.
  unfold renderMarkdown. world_cases; intros H; in_trace H; exact I.
Qed.

Lemma handler_no_log (e : exn) (s : string) :
  ~ In (ConsoleLog s) (fst (handler e)).
Proof. destruct e; cbn; intuition discriminate. Qed.

(** The success message is printed exactly when the arguments resolve
    and every step of [renderMarkdown], [close] included, goes through. *)
Theorem success_reported_iff (args : list string) (cwd : string) :
  In (ConsoleLog msg_done) (fst (main w args cwd))
  <-> exists o, new_Options args cwd = Ok o
                /\ snd (renderMarkdown w o) = Returned tt.
Proof.
  destruct (new_Options args cwd) as [o|e] eqn:E.
  - rewrite (@main_valid _ _ _ E). cbn [fst]. split.
    + intros [H|H]; [inversion H|].
      apply in_app_or in H as [H|H];
        [now apply render_no_console in H|].
      apply in_app_or in H as [H|[H|[]]]; [|discriminate H].
      exists o. split; [reflexivity|].
      destruct (snd (renderMarkdown w o)) as [[]|e|c]; cbn in H.
      * reflexivity.
      * now apply handler_no_log in H.
      * contradiction.
    + intros (o' & Ho' & Hr). inversion Ho'; subst o'. rewrite Hr.
      right. apply in_or_app. right. now left.
  - rewrite (@main_invalid _ _ _ E). cbn [fst]. split.
    + intros H. apply in_app_or in H as [H|[H|[]]]; [|discriminate H].
      now apply handler_no_log in H.
    + intros (o' & Ho' & _). discriminate Ho'.
Qed.

(** A rendering step that throws an [Error] is reported under
    "unknown error" with the error's name and message, after which the
    process exits. *)
Theorem unknown_error_reported (args : list string) (cwd : string)
  (o : Options) (name message : string) :
  new_Options args cwd = Ok o ->
  snd (renderMarkdown w o) = Thrown (Error name message) ->
  main w args cwd
  = ((ConsoleLog msg_start :: fst (renderMarkdown w o)
      ++ [ConsoleError (msg_unknown name message); Exit 0%Z])%list,
     Exited 0%Z).
Proof.
  intros H Hr. rewrite (@main_valid _ _ _ H), Hr. reflexivity.
Qed.

(** A [SyntaxError] thrown by a rendering step, with arguments that
    resolved, is reported with the usage message of a parameter error. *)
Theorem render_SyntaxError_reported_as_usage (args : list string)
  (cwd : string) (o : Options) :
  new_Options args cwd = Ok o ->
  snd (renderMarkdown w o) = Thrown SyntaxError ->
  main w args cwd
  = ((ConsoleLog msg_start :: fst (renderMarkdown w o)
      ++ [ConsoleError msg_usage; Exit 0%Z])%list,
     Exited 0%Z).
Proof.
  intros H Hr. rewrite (@main_valid _ _ _ H), Hr. reflexivity.
Qed.

(** A thrown value that is no [Error] is reported by nothing: after the
    start message and the steps that ran, the process just exits. *)
Theorem non_Error_thrown_is_silent (args : list string) (cwd : string)
  (o : Options) :
  new_Options args cwd = Ok o ->
  snd (renderMarkdown w o) = Thrown NotAnError ->
  main w args cwd
  = ((ConsoleLog msg_start :: fst (renderMarkdown w o) ++ [Exit 0%Z])%list,
     Exited 0%Z).
Proof.
  intros H Hr. rewrite (@main_valid _ _ _ H), Hr. reflexivity.
Qed.

End MoreRuns.

(** Rewriting with what the outside answered. *)
Ltac answered :=
  cbn [answer];
  repeat match goal with
    | E : ?call = _ |- context [?call] => rewrite E
    end.

Section MoreEmission.
Context {P : Platform}.
Variable w : World.

(** [renderMarkdown] stops at the first call that throws: every call but
    the last one recorded went through, and the run ends as the last
    call did -- it returns if that went through and throws what that
    threw. *)
Theorem stops_at_first_failure (o : Options) :
  Forall (fun ev => answer w ev = Ok tt)
         (removelast (fst (renderMarkdown w o)))
  /\ snd (renderMarkdown w o)
     = match answer w (last (fst (renderMarkdown w o)) Close) with
       | Ok _ => Returned tt
       | Throw e => Thrown e
       end.
Proof.
  unfold renderMarkdown.
  world_cases; cbn [removelast last]; (split; [|answered; reflexivity]);
    repeat (constructor; [answered; reflexivity|]); constructor.
Qed.

(** A successful run is the full sequence, in this order: read the
    source, convert it, read the stylesheet, write the HTML file if asked
    to, launch, new page, set the content, print, close. *)
Theorem successful_run (o : Options) :
  snd (renderMarkdown w o) = Returned tt ->
  exists md html css,
    fs_readFile w (src o) = Ok md
    /\ marked w md = Ok html
    /\ fs_readFile w (resolve meta_dir "../css/APS.css") = Ok css
    /\ fst (renderMarkdown w o)
       = ([ReadFile (src o); Marked md;
           ReadFile (resolve meta_dir "../css/APS.css")]
          ++ (if outputHTML o
              then [WriteFile (JS.replace (src o) ".md" ".html")
                              (web_template (title_of o) css html)]
              else [])
          ++ [Launch (browser o); NewPage;
              SetContent (web_template (title_of o) css html);
              Pdf (pdf_options o); Close])%list.
Proof.
  unfold renderMarkdown.
  world_cases; intros H; try discriminate H;
    do 3 eexists; repeat split; first [reflexivity | eassumption].
Qed.

(** The HTML file holds the very document the page is given, and it is
    written beside nothing but the source path's replacement. *)
Theorem html_file_is_page_content (o : Options) (p d d' : string) :
  In (WriteFile p d) (fst (renderMarkdown w o)) ->
  In (SetContent d') (fst (renderMarkdown w o)) ->
  p = JS.replace (src o) ".md" ".html" /\ d' = d.
Proof.
  unfold renderMarkdown.
  world_cases; intros H H'; in_trace H; in_trace H'; split; reflexivity.
Qed.

(** What [renderMarkdown] touches: it reads the source and the
    stylesheet and no other file, converts what it read from the source,
    writes only with the flag set and only the HTML path, launches the
    configured browser, prints to the output path in A4 -- and neither
    prints to the console nor exits. *)
Theorem renderMarkdown_footprint (o : Options) (ev : event) :
  In ev (fst (renderMarkdown w o)) ->
  match ev with
  | ReadFile p => p = src o \/ p = resolve meta_dir "../css/APS.css"
  | Marked md => fs_readFile w (src o) = Ok md
  | WriteFile p _ =>
      outputHTML o = true /\ p = JS.replace (src o) ".md" ".html"
  | Launch x => x = browser o
  | Pdf po => path po = out o /\ format po = "A4"
  | NewPage | SetContent _ | Close => True
  | ConsoleLog _ | ConsoleError _ | Exit _ => False
  end.
Proof.
  unfold renderMarkdown.
  world_cases; intros H; in_trace H; auto.
Qed.

(** For a source path that holds [.md] at its end only, the HTML file
    goes beside the source under the same name with [.html]; and for a
    file name that holds [.md] at its end only, the title is the name
    without it. *)
Theorem derived_names (o : Options) (p q : string) :
  (src o = p ++ ".md" -> JS.includes p ".md" = false ->
   html_path o = p ++ ".html")
  /\ (basename (src o) = q ++ ".md" -> JS.includes q ".md" = false ->
      title_of o = q).
Proof.
  unfold html_path, title_of. split; intros -> Hp.
  - now apply replace_extension.
  - rewrite (@replace_extension q "" Hp). apply JSFacts.append_nil_r.
Qed.

End MoreEmission.

Lemma unknown_error_reported_witness :
  @main posix no_launch_world ["--src=paper"] "/docs"
  = ((ConsoleLog msg_start :: fst (@renderMarkdown posix no_launch_world posix_paper)
      ++ [ConsoleError (msg_unknown "Error" "Failed to launch"); Exit 0%Z])%list,
     Exited 0%Z).
Proof.
  exact (@unknown_error_reported posix no_launch_world ["--src=paper"] "/docs"
           posix_paper "Error" "Failed to launch" eq_refl eq_refl).
Defined.

Lemma render_SyntaxError_reported_as_usage_witness :
  @main posix syntax_error_world ["--src=paper"] "/docs"
  = ([ConsoleLog msg_start; ReadFile "/docs/paper.md"; Marked "# t";
      ConsoleError msg_usage; Exit 0%Z], Exited 0%Z).
Proof.
  exact (@render_SyntaxError_reported_as_usage posix syntax_error_world
           ["--src=paper"] "/docs" posix_paper eq_refl eq_refl).
Defined.

Lemma non_Error_thrown_is_silent_witness :
  @main posix not_an_error_world ["--src=paper"] "/docs"
  = ([ConsoleLog msg_start; ReadFile "/docs/paper.md"; Exit 0%Z], Exited 0%Z).
Proof.
  exact (@non_Error_thrown_is_silent posix not_an_error_world
           ["--src=paper"] "/docs" posix_paper eq_refl eq_refl).
Defined.

Lemma successful_run_witness :
  length (fst (@renderMarkdown posix (fine_world "# t" "h1{}" "<h1>t</h1>")
                 posix_paper_final)) = 9%nat.
Proof.
  destruct (@successful_run posix (fine_world "# t" "h1{}" "<h1>t</h1>")
              posix_paper_final eq_refl) as (md & html & css & _ & _ & _ & Ht).
  rewrite Ht. reflexivity.
Defined.

Lemma html_file_is_page_content_witness :
  "/docs/paper.html" = JS.replace (src posix_paper_final) ".md" ".html"
  /\ web_template "paper" "h1{}" "<h1>t</h1>"
     = web_template "paper" "h1{}" "<h1>t</h1>".
Proof.
  apply (@html_file_is_page_content posix
           (fine_world "# t" "h1{}" "<h1>t</h1>") posix_paper_final).
  - do 3 right. left. reflexivity.
  - do 6 right. left. reflexivity.
Defined.

Lemma renderMarkdown_footprint_witness :
  path (pdf_options posix_paper_final) = "/docs/out/final.pdf"
  /\ format (pdf_options posix_paper_final) = "A4".
Proof.
  apply (@renderMarkdown_footprint posix
           (fine_world "# t" "h1{}" "<h1>t</h1>") posix_paper_final
           (Pdf (pdf_options posix_paper_final))).
  do 7 right. left. reflexivity.
Defined.

Lemma derived_names_witness :
  @html_path posix_paper = "/docs/paper.html"
  /\ @title_of posix posix_paper = "paper".
Proof.
  destruct (@derived_names posix posix_paper "/docs/paper" "paper")
    as [Hhtml Htitle].
  split; [apply Hhtml | apply Htitle]; reflexivity.
Defined.
